(** * Comic-book encyclopedia: ingestion, upsert and search, verified

    A shallow embedding of the Python sources under [encyclopedia/]:
    [parsers.py], [repositories.py], [models.py], [services.py] and the
    text cleaner of [management/commands/import_comics.py].

    Python values are modelled as follows.
    - [str] is a sequence of Unicode code points: [list N].  The cleaner
      handles U+2122, so 8-bit characters would not do.
    - A [dict] used as a map is a [gmap]; a [dict] whose iteration order is
      observed (the counters of the reports) is an association list.
    - A [set] is a [gset]; [list(a_set)] is [elements], whose order is as
      arbitrary here as it is in Python: statements about it speak of
      membership and [NoDup] only.
    - The table [Comic] is a [gmap] from [bl_record_id] (declared unique)
      to rows; the table [SearchLog] is the list of its rows, oldest first. *)

From Stdlib Require Import ZArith NArith String Ascii.
From stdpp Require Import gmap list sorting.

Local Open Scope N_scope.

(** ** Python strings *)

Module PyStr.

Definition char := N.
Definition str := list char.

(** Code points of a literal (all literals of the sources that we need
    are ASCII, apart from three symbols written as numbers below). *)
Definition U (s : string) : str := N_of_ascii <$> list_ascii_of_string s.

(** [bool(s)] for a string: non-empty. *)
Definition truthy (s : str) : bool :=
  match s with [] => false | _ :: _ => true end.

(** [str.isspace] on one code point (CPython's [_PyUnicode_IsWhitespace]);
    the same class is [\s] of [re] on [str] patterns. *)
Definition is_space (c : char) : bool :=
  ((9 <=? c) && (c <=? 13)) || ((28 <=? c) && (c <=? 32))
  || (c =? 133) || (c =? 160) || (c =? 5760)
  || ((8192 <=? c) && (c <=? 8202))
  || (c =? 8232) || (c =? 8233) || (c =? 8239) || (c =? 8287) || (c =? 12288).

Definition SPACE : char := 32.

Fixpoint lstrip (s : str) : str :=
  match s with
  | [] => []
  | c :: r => if is_space c then lstrip r else s
  end.

Definition rstrip (s : str) : str := rev (lstrip (rev s)).

(** [s.strip()] *)
Definition strip (s : str) : str := rstrip (lstrip s).

(** [s.split(sep)] for a one-character separator: every occurrence cuts,
    empty pieces are kept, and the result is never empty. *)
Fixpoint split (sep : char) (s : str) : list str :=
  match s with
  | [] => [[]]
  | c :: r =>
      if c =? sep then [] :: split sep r
      else match split sep r with
           | [] => [[c]]
           | p :: ps => (c :: p) :: ps
           end
  end.

(** [s.replace(old, new)] for a one-character [old]. *)
Definition replace (old : char) (new : str) (s : str) : str :=
  s ≫= (λ c, if c =? old then new else [c]).

(** [sep.join(parts)] *)
Fixpoint join (sep : str) (parts : list str) : str :=
  match parts with
  | [] => []
  | [p] => p
  | p :: ps => p ++ sep ++ join sep ps
  end.

(** [sub in s] for a one-character [sub]. *)
Definition contains_char (c : char) (s : str) : bool :=
  existsb (N.eqb c) s.

(** [s.lower()] restricted to ASCII letters; it is applied to the five
    ASCII column names of the parser only. *)
Definition lower (s : str) : str :=
  (λ c, if (65 <=? c) && (c <=? 90) then c + 32 else c) <$> s.

(** White space only (the empty string included). *)
Definition whitespace_only (s : str) : Prop := Forall (λ c, is_space c = true) s.

(** The first character, if any, is not white space. *)
Definition no_lead (s : str) : Prop :=
  match s with [] => True | c :: _ => is_space c = false end.

End PyStr.
Import PyStr.

(** ** parsers.py *)

Module Parsers.

Definition SEMICOLON : char := 59.
Definition COMMA : char := 44.
Definition MISSING : str := U "missing".

(** [x or y] on two results of [dict.get]: [None] and [""] are falsy. *)
Definition or_else (a b : option str) : option str :=
  match a with
  | Some s => if truthy s then a else b
  | None => b
  end.

(** [not value or value.strip() == ""] *)
Definition blank (value : option str) : bool :=
  match value with
  | None => true
  | Some v => negb (truthy v) || negb (truthy (strip v))
  end.

Definition split_semicolon_field (value : option str) : list str :=
  match value with
  | None => []
  | Some v =>
      if blank value then []
      else strip <$> filter (λ p, strip p ≠ []) (split SEMICOLON v)
  end.

(** The loop of [parse_isbn]: the pieces between commas of the value
    without its U+0020 characters, each stripped, the empty ones left out. *)
Definition isbn_parts (v : str) : list str :=
  filter (λ p, p ≠ []) (strip <$> split COMMA (replace SPACE [] v)).

Definition parse_isbn (value : option str) : list str :=
  match value with
  | None => [MISSING]
  | Some v =>
      if blank value then [MISSING]
      else match isbn_parts v with
           | [] => [MISSING]
           | parts => parts
           end
  end.

Definition normalize_text (value : option str) : str :=
  match value with
  | None => []
  | Some v => strip v
  end.

(** A JSON value of [other_fields]: a string or a list of strings. *)
Inductive json_value :=
  | JStr (s : str)
  | JList (l : list str).

(** The dict returned by [parse_row_to_record].  The keys that
    [upsert_from_parsed] reads with [dict.get] and a default may be
    absent; the two it indexes must be there. *)
Record Parsed := {
  rec_bl_record_id : str;
  rec_title : str;
  rec_variant_titles : option (list str);
  rec_authors : option (list str);
  rec_publication_years : option (list str);
  rec_genres : option (list str);
  rec_languages : option (list str);
  rec_isbn : option (list str);
  rec_other_fields : option (gmap str json_value)
}.

(** A row of [csv.DictReader]: column label to cell. *)
Abbreviation Row := (gmap str str).

Definition OTHER_KEYS : list str :=
  [U "Publisher"; U "Place of publication"; U "Topics";
   U "Physical description"; U "Notes"].

(** One turn of the loop over the auxiliary columns. *)
Definition other_step (row : Row) (other : gmap str json_value) (key : str)
  : gmap str json_value :=
  match row !! key with
  | None => other
  | Some val =>
      <[replace SPACE (U "_") (lower key) :=
          if truthy val && contains_char SEMICOLON val
          then JList (split_semicolon_field (Some val))
          else JStr (normalize_text (Some val))]> other
  end.

Definition parse_row_to_record (row : Row) : Parsed :=
  {| rec_bl_record_id :=
       normalize_text (or_else (row !! U "BL record ID")
                         (or_else (row !! U "BL record id")
                                  (row !! U "BL record id")));
     rec_title := normalize_text (or_else (row !! U "Title") (row !! U "Title "));
     rec_variant_titles :=
       Some (split_semicolon_field
               (or_else (row !! U "Variant titles") (row !! U "Variant titles ")));
     rec_authors :=
       Some (split_semicolon_field (or_else (row !! U "Name") (row !! U "Name ")));
     rec_publication_years :=
       Some (split_semicolon_field
               (or_else (row !! U "Date of publication")
                        (row !! U "Date of publication ")));
     rec_genres :=
       Some (split_semicolon_field (or_else (row !! U "Genre") (row !! U "Genre ")));
     rec_languages :=
       Some (split_semicolon_field
               (or_else (row !! U "Languages") (row !! U "Languages ")));
     rec_isbn := Some (parse_isbn (or_else (row !! U "ISBN") (row !! U "ISBN ")));
     rec_other_fields := Some (foldl (other_step row) ∅ OTHER_KEYS) |}.

End Parsers.
Import Parsers.

(** ** models.py *)

Module Models.

(** A row of the table [Comic].  [created_at], which nothing below reads
    or writes after creation, is left out; the primary key is the row's
    presence in the table. *)
Record Comic := {
  bl_record_id : str;
  title : str;
  variant_titles : list str;
  authors : list str;
  publication_years : list str;
  genres : list str;
  languages : list str;
  isbn : list str;
  other_fields : gmap str json_value
}.

(** A row of the table [SearchLog] ([timestamp] left out likewise). *)
Record SearchLog := {
  query_text : str;
  result_ids : list str;
  num_results : nat
}.

(** The table [Comic], keyed by the unique column [bl_record_id]. *)
Abbreviation Comics := (gmap str Comic).

End Models.
Import Models.

(** ** repositories.py *)

Module ComicRepository.

(** [Comic(bl_record_id=...)]: the field defaults of the model. *)
Definition fresh (bl_id : str) : Comic :=
  {| bl_record_id := bl_id; title := [];
     variant_titles := []; authors := []; publication_years := [];
     genres := []; languages := []; isbn := []; other_fields := ∅ |}.

Definition get_by_bl_id (bl_id : str) (db : Comics) : option Comic := db !! bl_id.

(** [list({*old, *new}) if obj.pk else new] *)
Definition merged (pk : bool) (old new : list str) : list str :=
  if pk then elements (list_to_set (old ++ new) : gset str) else new.

(** [upsert_from_parsed]: the table after [obj.save()] and [obj]. *)
Definition upsert_from_parsed (parsed : Parsed) (db : Comics) : Comics * Comic :=
  let found := db !! rec_bl_record_id parsed in
  let pk := bool_decide (is_Some found) in
  let obj := default (fresh (rec_bl_record_id parsed)) found in
  let obj' :=
    {| bl_record_id := bl_record_id obj;
       title :=
         if truthy (rec_title parsed) then rec_title parsed
         else if truthy (title obj) then title obj else rec_title parsed;
       variant_titles :=
         merged pk (variant_titles obj) (default [] (rec_variant_titles parsed));
       authors := merged pk (authors obj) (default [] (rec_authors parsed));
       publication_years :=
         merged pk (publication_years obj)
                (default [] (rec_publication_years parsed));
       genres := merged pk (genres obj) (default [] (rec_genres parsed));
       languages := merged pk (languages obj) (default [] (rec_languages parsed));
       isbn := default [MISSING] (rec_isbn parsed);
       other_fields := default ∅ (rec_other_fields parsed) ∪ other_fields obj |} in
  (<[rec_bl_record_id parsed := obj']> db, obj').

End ComicRepository.
Import ComicRepository.

(** ** management/commands/import_comics.py: the body of the row loop *)

Module ImportComics.

(** [parsed = parse_row_to_record(row)], then the upsert when
    [parsed.get("bl_record_id")] is truthy. *)
Definition import_row (db : Comics) (row : Row) : Comics :=
  let parsed := parse_row_to_record row in
  if truthy (rec_bl_record_id parsed) then (upsert_from_parsed parsed db).1
  else db.

(** The rows of the files, in order, onto a table. *)
Definition import_rows (db : Comics) (rows : list Row) : Comics :=
  foldl import_row db rows.

(** *** [Command.clean_special_characters]

    [\w] of [re] (the Unicode alphanumerics and the underscore) is a table
    of the interpreter, not of this program: it is the parameter [is_word]. *)
Section Clean.
Variable is_word : char → bool.

(** The dict [replacements], in its insertion order. *)
Definition REPLACEMENTS : list (char * str) :=
  [(38, U " and "); (64, U " at "); (35, U " number ");
   (37, U " percent "); (36, U " dollar "); (169, U " copyright ");
   (174, U " registered "); (8482, U " trademark ")].

(** [for char, replacement in replacements.items(): text = text.replace(...)] *)
Definition replace_all (text : str) : str :=
  foldl (λ t cr, replace cr.1 cr.2 t) text REPLACEMENTS.

(** The punctuation of the character class: [- . , ! ? : ; ( )]. *)
Definition PUNCTUATION : list char := [45; 46; 44; 33; 63; 58; 59; 40; 41].

Definition kept (c : char) : bool :=
  is_word c || is_space c || existsb (N.eqb c) PUNCTUATION.

(** [re.sub(r'[^\w\s\-\.\,\!\?\:\;\(\)]', ' ', text)] *)
Definition scrub (text : str) : str :=
  (λ c, if kept c then c else SPACE) <$> text.

(** [re.sub(r'\s+', ' ', text)]; [in_run] tells that the previous
    character was white space, whose run has been replaced already. *)
Fixpoint squeeze (in_run : bool) (text : str) : str :=
  match text with
  | [] => []
  | c :: r =>
      if is_space c then
        if in_run then squeeze true r else SPACE :: squeeze true r
      else c :: squeeze false r
  end.

Definition clean_text (text : str) : str :=
  strip (squeeze false (scrub (replace_all text))).

(** [None] for Python's [None]; [if not text: return text]. *)
Definition clean_special_characters (text : option str) : option str :=
  match text with
  | None => None
  | Some t => if truthy t then Some (clean_text t) else Some t
  end.

(** [Comic.get_clean_title] of models.py: the same three steps on
    [self.title or ""]. *)
Definition get_clean_title (c : Comic) : str :=
  strip (squeeze false (scrub (replace_all (title c)))).

(** The row loop of [handle] with the option [--clean-special-chars]. *)
Definition handle_row (clean_chars : bool) (db : Comics) (row : Row) : Comics :=
  import_row db
    (if clean_chars then (λ v, default v (clean_special_characters (Some v))) <$> row
     else row).

End Clean.

End ImportComics.
Import ImportComics.



(** ** services.py *)

Module Services.

(** A lazily filtered query set, once evaluated: the rows it selects. *)
Abbreviation QuerySet := (list Comic).

(** The value of the parameter [languages]: a string or a list. *)
Inductive lang_value :=
  | LStr (s : str)
  | LList (l : list str).

(** The keyword arguments of [search]; [None] is Python's [None]. *)
Record SearchArgs := {
  arg_title_query : option str;
  arg_genre : option str;
  arg_author : option str;
  arg_year : option str;
  arg_edition : option str;
  arg_languages : option lang_value;
  arg_name_type : option str
}.

Definition MAX_RESULTS : nat := N.to_nat 10000.

Section Service.

(** What the database and the interpreter decide, the program does not:
    the lookups [icontains] of the ORM on a JSON list, on a text column and
    on a JSON object; the ordering of the column [title] that
    [order_by("title")] sorts by; and the text of a list inside an
    f-string. *)
Variable icontains_list : list str → str → bool.
Variable icontains_text : str → str → bool.
Variable icontains_dict : gmap str json_value → str → bool.
Variable title_le : relation str.
Context `{!RelDecision title_le}.
Variable repr_list : list str → str.

(** The six filters on a string share their guard and differ in the
    column: [queryset.filter(<column>__icontains=value.strip())]. *)
Definition string_filter (test : Comic → str → bool)
    (queryset : QuerySet) (value : option str) : QuerySet :=
  if blank value then queryset
  else List.filter (λ c, test c (strip (default [] value))) queryset.

Definition GenreFilter := string_filter (λ c v, icontains_list (genres c) v).
Definition AuthorFilter := string_filter (λ c v, icontains_list (authors c) v).
Definition YearFilter :=
  string_filter (λ c v, icontains_list (publication_years c) v).
Definition TitleFilter :=
  string_filter (λ c v, icontains_text (title c) v
                        || icontains_list (variant_titles c) v).
Definition EditionFilter := string_filter (λ c v, icontains_dict (other_fields c) v).
Definition NameTypeFilter := string_filter (λ c v, icontains_dict (other_fields c) v).

(** The list [languages] that [LanguageFilter.apply_filter] builds. *)
Definition language_tokens (value : lang_value) : list str :=
  match value with
  | LStr s => strip <$> filter (λ lang, strip lang ≠ []) (split COMMA s)
  | LList l => strip <$> filter (λ lang, lang ≠ [] ∧ strip lang ≠ []) l
  end.

Definition lang_truthy (value : lang_value) : bool :=
  match value with
  | LStr s => truthy s
  | LList l => match l with [] => false | _ => true end
  end.

Definition LanguageFilter (queryset : QuerySet) (value : option lang_value)
  : QuerySet :=
  match value with
  | None => queryset
  | Some v =>
      if negb (lang_truthy v) then queryset
      else match language_tokens v with
           | [] => queryset
           | langs =>
               List.filter
                 (λ c, existsb (icontains_list (languages c)) langs) queryset
           end
  end.

(** [_clean_search_params] on a string and on the parameter [languages]. *)
Definition clean_str (value : option str) : option str :=
  match value with
  | None => None
  | Some v => if truthy (strip v) then Some (strip v) else None
  end.

Definition clean_lang (value : option lang_value) : option lang_value :=
  match value with
  | None => None
  | Some (LStr s) => if truthy (strip s) then Some (LStr (strip s)) else None
  | Some (LList l) =>
      match strip <$> filter (λ item, item ≠ [] ∧ strip item ≠ []) l with
      | [] => None
      | clean_list => Some (LList clean_list)
      end
  end.

Definition _clean_search_params (a : SearchArgs) : SearchArgs :=
  {| arg_title_query := clean_str (arg_title_query a);
     arg_genre := clean_str (arg_genre a);
     arg_author := clean_str (arg_author a);
     arg_year := clean_str (arg_year a);
     arg_edition := clean_str (arg_edition a);
     arg_languages := clean_lang (arg_languages a);
     arg_name_type := clean_str (arg_name_type a) |}.

(** One item of the dict [search_params] together with the filter that
    [self.filters] holds under the same name: whether the value is truthy,
    its text in an f-string, and the filter applied to it. *)
Record Param := {
  param_name : str;
  param_present : bool;
  param_text : str;
  param_filter : QuerySet → QuerySet
}.

Definition str_param (name : str)
    (apply_filter : QuerySet → option str → QuerySet) (value : option str)
  : Param :=
  {| param_name := name;
     param_present := truthy (default [] value);
     param_text := default [] value;
     param_filter := λ qs, apply_filter qs value |}.

Definition lang_param (name : str) (value : option lang_value) : Param :=
  {| param_name := name;
     param_present := from_option lang_truthy false value;
     param_text :=
       match value with
       | Some (LStr s) => s
       | Some (LList l) => repr_list l
       | None => U "None"
       end;
     param_filter := λ qs, LanguageFilter qs value |}.

(** The dict [search_params], in its insertion order. *)
Definition search_params (params : SearchArgs) : list Param :=
  [ str_param (U "genre") GenreFilter (arg_genre params);
    str_param (U "author") AuthorFilter (arg_author params);
    str_param (U "year") YearFilter (arg_year params);
    str_param (U "title") TitleFilter (arg_title_query params);
    lang_param (U "languages") (arg_languages params);
    str_param (U "edition") EditionFilter (arg_edition params);
    str_param (U "name_type") NameTypeFilter (arg_name_type params) ].

(** [f"{param_name}={param_value}"] *)
Definition describe (p : Param) : str := param_name p ++ U "=" ++ param_text p.

(** The loop over [search_params.items()]: the query set and the list
    [applied_filters] when it ends, by exhaustion or by [break]. *)
Fixpoint apply_filters (ps : list Param) (qs : QuerySet)
  : QuerySet * list str :=
  match ps with
  | [] => (qs, [])
  | p :: rest =>
      if param_present p then
        let qs' := param_filter p qs in
        match qs' with
        | [] => (qs', [describe p])
        | _ :: _ =>
            let r := apply_filters rest qs' in (r.1, describe p :: r.2)
        end
      else apply_filters rest qs
  end.

(** [order_by("title")]: the rows sorted by the column [title]. *)
Definition title_order : relation Comic := λ a b, title_le (title a) (title b).

#[local] Instance title_order_dec : RelDecision title_order.
Proof. intros a b. unfold title_order. apply _. Defined.

Definition order_by_title (qs : QuerySet) : QuerySet :=
  merge_sort title_order qs.

(** [search]: the list returned and the table [SearchLog] after the
    [create] (a failure of which is swallowed and not modelled). *)
Definition search (args : SearchArgs) (db : Comics) (log : list SearchLog)
  : list Comic * list SearchLog :=
  let params := _clean_search_params args in
  let qs := (map_to_list db).*2 in
  let r := apply_filters (search_params params) qs in
  let results := take MAX_RESULTS (order_by_title r.1) in
  let query_text :=
    match r.2 with
    | [] => U "empty_search"
    | applied => join (U " AND ") applied
    end in
  (results,
   log ++ [ {| query_text := query_text;
               result_ids := bl_record_id <$> results;
               num_results := length results |} ]).

End Service.

(** *** The reports *)

(** [counts[rid] = counts.get(rid, 0) + 1] on a dict whose order of
    insertion is read back by [items()]. *)
Fixpoint bump (rid : str) (counts : list (str * nat)) : list (str * nat) :=
  match counts with
  | [] => [(rid, 1%nat)]
  | (k, n) :: rest =>
      if decide (k = rid) then (k, S n) :: rest else (k, n) :: bump rid rest
  end.

Definition count_results (log : list SearchLog) : list (str * nat) :=
  foldl (λ counts entry, foldl (λ cs rid, bump rid cs) counts (result_ids entry))
        [] log.

(** [sorted(items, key=lambda kv: kv[1], reverse=True)]: stable, so an
    item goes behind those of the same count that came before it. *)
Fixpoint insert_desc (x : str * nat) (l : list (str * nat)) : list (str * nat) :=
  match l with
  | [] => [x]
  | y :: rest =>
      if (y.2 <? x.2)%nat then x :: l else y :: insert_desc x rest
  end.

Definition sorted_desc (items : list (str * nat)) : list (str * nat) :=
  foldl (λ acc x, insert_desc x acc) [] items.

(** [l[:limit]], a negative [limit] counting from the end. *)
Definition slice_to {A} (limit : Z) (l : list A) : list A :=
  if (0 <=? limit)%Z then take (Z.to_nat limit) l
  else take (length l - Z.to_nat (- limit))%nat l.

(** [top_results]: [None] in a pair is the [None] that
    [Comic.objects.filter(...).first()] gives for no row. *)
Definition top_results (limit : Z) (log : list SearchLog) (db : Comics)
  : list (option Comic * nat) :=
  (λ item, (db !! item.1, item.2)) <$> slice_to limit (sorted_desc (count_results log)).

(** [names_in_more_than_n_results], with its guard [if comic:]. *)
Definition names_in_more_than_n_results (n : nat) (log : list SearchLog)
    (db : Comics) : list (str * nat) :=
  omap (λ item, if (n <? item.2)%nat
                then (λ comic, (title comic, item.2)) <$> db !! item.1
                else None)
       (count_results log).

End Services.
Import Services.

(** ** services.py, on any value

    The annotations of [search] promise strings and lists of strings;
    Python does not check them.  Here the filters and the cleaning take
    whatever value a caller hands over, and raise as the interpreter
    does. *)

Module Untyped.

#[local] Unset Elimination Schemes.
Inductive py_value :=
  | PNone
  | PStr (s : str)
  | PInt (n : Z)
  | PList (items : list py_value).
#[local] Set Elimination Schemes.

Inductive py_error := AttributeError | TypeError.

(** [bool(value)] *)
Definition py_truthy (value : py_value) : bool :=
  match value with
  | PNone => false
  | PStr s => truthy s
  | PInt n => negb (n =? 0)%Z
  | PList items => match items with [] => false | _ :: _ => true end
  end.

(** The values that the annotations allow, as values of Python. *)
Definition of_str (value : option str) : py_value :=
  match value with
  | None => PNone
  | Some s => PStr s
  end.

Definition of_lang (value : option lang_value) : py_value :=
  match value with
  | None => PNone
  | Some (LStr s) => PStr s
  | Some (LList l) => PList (PStr <$> l)
  end.

Section Filters.
Variable icontains_list : list str → str → bool.
Variable icontains_text : str → str → bool.
Variable icontains_dict : gmap str json_value → str → bool.
(** [str(item)] of a value that is not a string. *)
Variable py_repr : py_value → str.

(** The guard [not value or not value.strip()] and the call
    [value.strip()] after it: only a string has the method. *)
Definition string_filter (test : Comic → str → bool)
    (queryset : QuerySet) (value : py_value) : py_error + QuerySet :=
  if negb (py_truthy value) then inr queryset
  else match value with
       | PStr s =>
           if negb (truthy (strip s)) then inr queryset
           else inr (List.filter (λ c, test c (strip s)) queryset)
       | _ => inl AttributeError
       end.

Definition GenreFilter := string_filter (λ c v, icontains_list (genres c) v).
Definition AuthorFilter := string_filter (λ c v, icontains_list (authors c) v).
Definition YearFilter :=
  string_filter (λ c v, icontains_list (publication_years c) v).
Definition TitleFilter :=
  string_filter (λ c v, icontains_text (title c) v
                        || icontains_list (variant_titles c) v).
Definition EditionFilter := string_filter (λ c v, icontains_dict (other_fields c) v).
Definition NameTypeFilter := string_filter (λ c v, icontains_dict (other_fields c) v).

(** [[lang.strip() for lang in value if lang and lang.strip()]] *)
Fixpoint language_items (items : list py_value) : py_error + list str :=
  match items with
  | [] => inr []
  | item :: rest =>
      if negb (py_truthy item) then language_items rest
      else match item with
           | PStr lang =>
               match language_items rest with
               | inl e => inl e
               | inr langs =>
                   inr (if truthy (strip lang) then strip lang :: langs else langs)
               end
           | _ => inl AttributeError
           end
  end.

(** [LanguageFilter.apply_filter]; a number cannot be iterated over. *)
Definition LanguageFilter (queryset : QuerySet) (value : py_value)
  : py_error + QuerySet :=
  if negb (py_truthy value) then inr queryset
  else
    match match value with
          | PStr s =>
              inr (strip <$> filter (λ lang, strip lang ≠ []) (split COMMA s))
          | PList items => language_items items
          | _ => inl TypeError
          end with
    | inl e => inl e
    | inr [] => inr queryset
    | inr langs =>
        inr (List.filter (λ c, existsb (icontains_list (languages c)) langs)
                         queryset)
    end.

(** [str(item)] *)
Definition py_str (item : py_value) : str :=
  match item with
  | PStr s => s
  | _ => py_repr item
  end.

(** [[item.strip() for item in value if item and str(item).strip()]] *)
Fixpoint clean_items (items : list py_value) : py_error + list py_value :=
  match items with
  | [] => inr []
  | item :: rest =>
      if py_truthy item && truthy (strip (py_str item)) then
        match item with
        | PStr s =>
            match clean_items rest with
            | inl e => inl e
            | inr clean_list => inr (PStr (strip s) :: clean_list)
            end
        | _ => inl AttributeError
        end
      else clean_items rest
  end.

(** One turn of the loop of [_clean_search_params]. *)
Definition clean_value (value : py_value) : py_error + py_value :=
  match value with
  | PNone => inr PNone
  | PStr s => inr (if truthy (strip s) then PStr (strip s) else PNone)
  | PList items =>
      match clean_items items with
      | inl e => inl e
      | inr [] => inr PNone
      | inr clean_list => inr (PList clean_list)
      end
  | _ => inr value
  end.

End Filters.

End Untyped.

(** ** Vocabulary of the specification *)

Module Spec.

(** The identifier parser in the specification's words: take some
    characters out of the text, split on the comma, trim each part, drop
    the empty parts, and answer the sentinel alone when nothing is left.
    Which characters are taken out is the parameter. *)
Definition parse_identifier_by (removed : char → bool) (v : str) : list str :=
  match filter (λ p, p ≠ [])
               (strip <$> split COMMA (List.filter (λ c, negb (removed c)) v)) with
  | [] => [MISSING]
  | parts => parts
  end.


(** The five multi-valued fields, of a stored row and of a parsed dict. *)
Inductive multi_field :=
  | VariantTitles | Authors | PublicationYears | Genres | Languages.

Definition stored (f : multi_field) (c : Comic) : list str :=
  match f with
  | VariantTitles => variant_titles c
  | Authors => authors c
  | PublicationYears => publication_years c
  | Genres => genres c
  | Languages => languages c
  end.

Definition parsed_of (f : multi_field) (p : Parsed) : list str :=
  default [] match f with
             | VariantTitles => rec_variant_titles p
             | Authors => rec_authors p
             | PublicationYears => rec_publication_years p
             | Genres => rec_genres p
             | Languages => rec_languages p
             end.

(** The cell of a row that [parse_row_to_record] hands to [parse_isbn]. *)
Definition isbn_cell (row : Row) : option str :=
  or_else (row !! U "ISBN") (row !! U "ISBN ").

(** The rows of an import that carry a given identifier. *)
Definition imports_of (bl_id : str) (rows : list Row) : list Row :=
  filter (λ row, rec_bl_record_id (parse_row_to_record row) = bl_id) rows.

(** Code points compared one by one: the order of SQLite's default
    collation on a text column. *)
Fixpoint codepoint_leb (a b : str) : bool :=
  match a, b with
  | [], _ => true
  | _ :: _, [] => false
  | x :: a', y :: b' => (x <? y) || ((x =? y) && codepoint_leb a' b')
  end.

Definition codepoint_le : relation str := λ a b, codepoint_leb a b = true.

(** The same after folding the case (of ASCII letters). *)
Definition caseless_le : relation str :=
  λ a b, codepoint_leb (lower a) (lower b) = true.

(** The invariant of the table along an import that starts empty. *)
Definition table_inv (rows : list Row) (db : Comics) : Prop :=
  (∀ k r, db !! k = Some r →
     truthy k = true ∧
     ∀ f, (∀ x, x ∈ stored f r → x ≠ [] ∧ ¬ whitespace_only x)
          ∧ ((2 ≤ length (imports_of k rows))%nat → NoDup (stored f r)))
  ∧ (∀ k, truthy k = true → db !! k = None → imports_of k rows = []).

(** A row with another title. *)
Definition set_title (t : str) (c : Comic) : Comic :=
  {| bl_record_id := bl_record_id c; title := t;
     variant_titles := variant_titles c; authors := authors c;
     publication_years := publication_years c; genres := genres c;
     languages := languages c; isbn := isbn c; other_fields := other_fields c |}.

(** A character that [clean_special_characters] spells out. *)
Definition is_symbol (c : char) : bool := existsb (N.eqb c) (REPLACEMENTS.*1).

(** White space as [re.sub(r'\s+', ' ', text)] leaves it: U+0020 only,
    never twice in a row ([in_run]: the previous character was one). *)
Fixpoint squeezed (in_run : bool) (text : str) : bool :=
  match text with
  | [] => true
  | c :: r =>
      if is_space c then negb in_run && (c =? SPACE) && squeezed true r
      else squeezed false r
  end.

(** The count that a counter dict holds for an identifier. *)
Definition tally (rid : str) (counts : list (str * nat)) : nat :=
  sum_list ((filter (λ kv, kv.1 = rid) counts).*2).

(** A parameter without a value, or with white space only. *)
Definition blank_str (v : option str) : Prop :=
  match v with
  | None => True
  | Some s => whitespace_only s
  end.

Definition blank_lang (v : option lang_value) : Prop :=
  match v with
  | None => True
  | Some (LStr s) => whitespace_only s
  | Some (LList l) => Forall whitespace_only l
  end.

#[global] Instance codepoint_le_dec : RelDecision codepoint_le.
Proof. intros a b. unfold codepoint_le. apply _. Defined.

End Spec.
Import Spec.

(** ** Sample data, after the fixtures of the tests *)

Module Samples.

Definition row_watchmen : Row :=
  list_to_map [(U "BL record ID", U "003"); (U "Title", U "Watchmen");
               (U "Name", U "Alan Moore"); (U "Genre", U "Science fiction;Drama");
               (U "ISBN", U "978-1401245252")].

Definition row_watchmen_again : Row :=
  list_to_map [(U "BL record ID", U "003"); (U "Title", U "");
               (U "Name", U "Dave Gibbons; Alan Moore"); (U "ISBN", U "")].


(** A cell that names an author twice. *)
Definition row_repeated_author : Row :=
  list_to_map [(U "BL record ID", U "1"); (U "Name", U "A;A")].

Definition comic_titled (bl_id t : str) : Comic :=
  {| bl_record_id := bl_id; title := t;
     variant_titles := []; authors := []; publication_years := [];
     genres := []; languages := []; isbn := [MISSING]; other_fields := ∅ |}.

Definition parsed_authors (bl_id : str) (names : list str) : Parsed :=
  {| rec_bl_record_id := bl_id; rec_title := [];
     rec_variant_titles := Some []; rec_authors := Some names;
     rec_publication_years := Some []; rec_genres := Some [];
     rec_languages := Some []; rec_isbn := Some [MISSING];
     rec_other_fields := Some ∅ |}.

Definition parsed_isbn (bl_id : str) (ids : list str) : Parsed :=
  {| rec_bl_record_id := bl_id; rec_title := [];
     rec_variant_titles := Some []; rec_authors := Some [];
     rec_publication_years := Some []; rec_genres := Some [];
     rec_languages := Some []; rec_isbn := Some ids;
     rec_other_fields := Some ∅ |}.

(** Two titles that differ in case. *)
Definition two_titles : Comics :=
  {[ U "1" := comic_titled (U "1") (U "a"); U "2" := comic_titled (U "2") (U "B") ]}.

Definition no_args : SearchArgs :=
  {| arg_title_query := None; arg_genre := None; arg_author := None;
     arg_year := None; arg_edition := None; arg_languages := None;
     arg_name_type := None |}.

(** A genre that no row has, and an author. *)
Definition horror_by_a : SearchArgs :=
  {| arg_title_query := None; arg_genre := Some (U " Horror ");
     arg_author := Some (U "a"); arg_year := None; arg_edition := None;
     arg_languages := None; arg_name_type := None |}.

(** A lookup on the elements of a JSON list: some element is the value.
    It stands in for the database where a concrete run needs one. *)
Definition has_element (l : list str) (v : str) : bool := bool_decide (v ∈ l).
Definition same_text (a b : str) : bool := bool_decide (a = b).
Definition no_entry (m : gmap str json_value) (v : str) : bool := false.
Definition first_or_empty (l : list str) : str := default [] (head l).

End Samples.
Import Samples.

(** ** models.py: the methods of [Comic] *)

Module ComicMethods.

(** [get_isbn]: [not self.isbn] is the empty list. *)
Definition get_isbn (c : Comic) : list str :=
  if bool_decide (isbn c = []) || bool_decide (isbn c = [[]]) then [MISSING]
  else isbn c.

(** One turn of the loop of [get_multi_value_fields]: the list stored
    under the key, or [None] when the key is left out. *)
Definition multi_value (value : json_value) : option (list str) :=
  match value with
  | JStr s =>
      if contains_char SEMICOLON s
      then Some (strip <$> filter (λ v, strip v ≠ []) (split SEMICOLON s))
      else if truthy s then Some [s] else None
  | JList l => Some l
  end.

Definition get_multi_value_fields (c : Comic) : gmap str (list str) :=
  omap multi_value (other_fields c).

(** [get_formatted_field_display], on a value of [other_fields]. *)
Definition get_formatted_field_display (field_name : str) (values : json_value)
  : str :=
  match values with
  | JList [] | JStr [] => field_name ++ U ": None"
  | JList [v] => field_name ++ U ": " ++ v
  | JList l => field_name ++ U ": " ++ join (U ", ") l
  | JStr s => field_name ++ U ": " ++ s
  end.

End ComicMethods.
Import ComicMethods.

(** ** Sorting and grouping: services.py and repositories.py *)

Module Strategies.

(** [a < b] on strings: code point by code point. *)
Fixpoint str_ltb (a b : str) : bool :=
  match a, b with
  | _, [] => false
  | [], _ :: _ => true
  | x :: a', y :: b' => (x <? y) || ((x =? y) && str_ltb a' b')
  end.

(** [sorted(l, key=key, reverse=reverse)].  The sort is stable in both
    directions: an item goes in front of the first one that must come
    after it, so behind the items of the same key met before. *)
Fixpoint insert_by {A} (before : A → A → bool) (x : A) (l : list A) : list A :=
  match l with
  | [] => [x]
  | y :: rest => if before x y then x :: l else y :: insert_by before x rest
  end.

Definition key_before {A} (key : A → str) (reverse : bool) (x y : A) : bool :=
  if reverse then str_ltb (key y) (key x) else str_ltb (key x) (key y).

Definition py_sorted {A} (key : A → str) (reverse : bool) (l : list A) : list A :=
  foldl (λ acc x, insert_by (key_before key reverse) x acc) [] l.

Section Sort.
(** [str.lower] on all of Unicode is a table of the interpreter. *)
Variable py_lower : str → str.

(** [AlphabeticalSortStrategy(reverse).sort] *)
Definition AlphabeticalSortStrategy_sort (reverse : bool) (results : list Comic)
  : list Comic :=
  py_sorted (λ c, py_lower (title c)) reverse results.

(** [ComicSearchService.sort_results] *)
Definition sort_results (results : list Comic) (order : str) : list Comic :=
  if bool_decide (order = U "asc") then AlphabeticalSortStrategy_sort false results
  else if bool_decide (order = U "desc")
       then AlphabeticalSortStrategy_sort true results
       else results.

End Sort.

(** [ComicRepository.sort_by_title] *)
Definition sort_by_title (comics : list Comic) (order : str) : list Comic :=
  py_sorted title (bool_decide (order = U "desc")) comics.

(** [groups.setdefault(key, []).append(comic)] *)
Definition add_to_group (groups : gmap str (list Comic)) (key : str) (c : Comic)
  : gmap str (list Comic) :=
  <[key := default [] (groups !! key) ++ [c]]> groups.

(** The loop shared by the two strategies; [field] is the list of the
    row's values, and [or_unknown] tells whether an empty list is replaced
    by [["Unknown"]]. *)
Definition group_by_field (or_unknown : bool) (field : Comic → list str)
    (results : list Comic) : gmap str (list Comic) :=
  foldl (λ groups c,
           foldl (λ g key, add_to_group g key c) groups
                 (match field c with
                  | [] => if or_unknown then [U "Unknown"] else []
                  | keys => keys
                  end))
        ∅ results.

Definition AuthorGroupStrategy_group := group_by_field true authors.
Definition YearGroupStrategy_group := group_by_field true publication_years.

(** [ComicSearchService.group] *)
Definition group (results : list Comic) (by_ : str) : gmap str (list Comic) :=
  if bool_decide (by_ = U "author") then AuthorGroupStrategy_group results
  else if bool_decide (by_ = U "year") then YearGroupStrategy_group results
  else ∅.

(** [ComicRepository.group_by_author] and [group_by_year]: a
    [defaultdict(list)], and no bucket for a row without values. *)
Definition group_by_author := group_by_field false authors.
Definition group_by_year := group_by_field false publication_years.

End Strategies.
Import Strategies.

(** ** The other reports and the search list *)

Module Reports.

(** [ComicSearchService.top_queries] *)
Definition top_queries (limit : Z) (log : list SearchLog) : list (str * nat) :=
  slice_to limit
    (sorted_desc (foldl (λ aggregated s, bump (query_text s) aggregated) [] log)).

(** [Comic.objects.filter(bl_record_id__in=ids)]: the rows whose
    identifier is one of [ids], each once, in the order of the table. *)
Definition rows_with_ids (ids : list str) (db : Comics) : list Comic :=
  (map_to_list (filter (λ kv, kv.1 ∈ ids) db)).*2.

(** [Counter(all_ids)], its keys in the order of their first occurrence. *)
Definition Counter (all_ids : list str) : list (str * nat) :=
  foldl (λ cs rid, bump rid cs) [] all_ids.

(** [all_ids] of the two repository reports. *)
Definition all_result_ids (log : list SearchLog) : list str :=
  mjoin (result_ids <$> log).

(** [ComicRepository.get_top_search_results] *)
Definition get_top_search_results (log : list SearchLog) (db : Comics)
  : list Comic :=
  rows_with_ids (take 10 (sorted_desc (Counter (all_result_ids log)))).*1 db.

(** [ComicRepository.get_comics_in_many_searches] *)
Definition get_comics_in_many_searches (threshold : nat) (log : list SearchLog)
    (db : Comics) : list Comic :=
  rows_with_ids
    (List.filter (λ item, (threshold <? item.2)%nat)
                 (Counter (all_result_ids log))).*1 db.

(** The session, as far as the program uses it: the keys [search_list]
    and [last_search_results], each bound to a list of identifiers. *)
Abbreviation Session := (gmap str (list str)).

Definition SEARCH_LIST : str := U "search_list".
Definition LAST_SEARCH_RESULTS : str := U "last_search_results".

(** [ComicSearchService.add_to_search_list] *)
Definition add_to_search_list (session : Session) (comic_id : str) : Session :=
  let search_list := default [] (session !! SEARCH_LIST) in
  <[SEARCH_LIST := if bool_decide (comic_id ∈ search_list) then search_list
                   else search_list ++ [comic_id]]> session.

(** [ComicSearchService.clear_search_list] *)
Definition clear_search_list (session : Session) : Session :=
  <[SEARCH_LIST := []]> session.

(** [ComicSearchService.get_search_list] *)
Definition get_search_list (session : Session) (db : Comics) : list Comic :=
  rows_with_ids (default [] (session !! SEARCH_LIST)) db.

(** [list.remove(x)]: the first occurrence goes. *)
Fixpoint list_remove (x : str) (l : list str) : list str :=
  match l with
  | [] => []
  | y :: rest => if bool_decide (y = x) then rest else y :: list_remove x rest
  end.

(** views.py, [remove_from_search_list]: what it does to the session;
    [bl_id] is [request.POST.get("bl_id")]. *)
Definition remove_from_search_list (session : Session) (bl_id : option str)
  : Session :=
  let search_list := default [] (session !! SEARCH_LIST) in
  match bl_id with
  | Some x =>
      if bool_decide (x ∈ search_list)
      then <[SEARCH_LIST := list_remove x search_list]> session
      else session
  | None => session
  end.

(** views.py, [save_to_search_list]: what it does to the session. *)
Definition save_to_search_list (session : Session) (bl_id : option str) : Session :=
  match bl_id with
  | Some x => if truthy x then add_to_search_list session x else session
  | None => session
  end.

(** views.py, [clear_search_results]: what it does to the session. *)
Definition clear_search_results (session : Session) : Session :=
  delete LAST_SEARCH_RESULTS (clear_search_list session).

End Reports.
Import Reports.

(** ** views.py: the two search views, without the rendering *)

Module Views.

(** The form of the advanced search, as [request.POST.get(name, "")]
    reads it. *)
Record AdvancedForm := {
  form_author : str;
  form_year : str;
  form_genre : str;
  form_edition : str;
  form_name_type : str;
  form_languages : str
}.

(** [raw.strip() or None] *)
Definition strip_or_none (raw : str) : option str :=
  if truthy (strip raw) then Some (strip raw) else None.

(** The list [languages] of the view: [None] for a blank field. *)
Definition form_language_list (raw : str) : option (list str) :=
  if truthy (strip raw)
  then Some (strip <$> filter (λ l, strip l ≠ []) (split COMMA raw))
  else None.

(** The keyword arguments that [advanced_search] passes to [search]. *)
Definition advanced_args (form : AdvancedForm) : SearchArgs :=
  {| arg_title_query := None;
     arg_genre := strip_or_none (form_genre form);
     arg_author := strip_or_none (form_author form);
     arg_year := strip_or_none (form_year form);
     arg_edition := strip_or_none (form_edition form);
     arg_languages := LList <$> form_language_list (form_languages form);
     arg_name_type := strip_or_none (form_name_type form) |}.

(** [any(v for v in cleaned_data.values())] *)
Definition has_criteria (form : AdvancedForm) : bool :=
  let a := advanced_args form in
  truthy (default [] (arg_author a)) || truthy (default [] (arg_year a))
  || truthy (default [] (arg_genre a)) || truthy (default [] (arg_edition a))
  || truthy (default [] (arg_name_type a))
  || from_option lang_truthy false (arg_languages a).

Definition NO_CRITERIA : str := U "Please provide at least one search criterion.".

Section Views.
Variable icontains_list : list str → str → bool.
Variable icontains_text : str → str → bool.
Variable icontains_dict : gmap str json_value → str → bool.
Variable title_le : relation str.
Context `{!RelDecision title_le}.
Variable repr_list : list str → str.
Variable py_lower : str → str.

(** [advanced_search] on a POST: the results and the message of the
    context, the session and the table [SearchLog] afterwards. *)
Definition advanced_search (form : AdvancedForm) (session : Session)
    (db : Comics) (log : list SearchLog)
  : list Comic * option str * Session * list SearchLog :=
  if has_criteria form then
    let r := search icontains_list icontains_text icontains_dict title_le
               repr_list (advanced_args form) db log in
    (r.1, None, <[LAST_SEARCH_RESULTS := bl_record_id <$> r.1]> session, r.2)
  else ([], Some NO_CRITERIA, session, log).

(** The query string of the view [search]. *)
Record SearchQuery := {
  get_q : option str;
  get_genre : option str;
  get_author : option str;
  get_year : option str;
  get_group_by : option str;
  get_order : option str;
  get_languages : list str
}.

(** The view [search]: results, groups, session and log. *)
Definition search_view (query : SearchQuery) (session : Session)
    (db : Comics) (log : list SearchLog)
  : list Comic * option (gmap str (list Comic)) * Session * list SearchLog :=
  let q := strip (default [] (get_q query)) in
  let order := default (U "asc") (get_order query) in
  let r := search icontains_list icontains_text icontains_dict title_le repr_list
             {| arg_title_query := Some q; arg_genre := get_genre query;
                arg_author := get_author query; arg_year := get_year query;
                arg_edition := None;
                arg_languages := Some (LList (get_languages query));
                arg_name_type := None |} db log in
  let results := if truthy order then sort_results py_lower r.1 order else r.1 in
  let groups :=
    match get_group_by query with
    | Some by_ => if truthy by_ then Some (group results by_) else None
    | None => None
    end in
  (results, groups,
   <[LAST_SEARCH_RESULTS := bl_record_id <$> results]> session, r.2).

End Views.

End Views.
Import Views.

(** ** More sample data *)

Module MoreSamples.

Definition row_editions : Row :=
  list_to_map [(U "BL record ID", U "A1"); (U "Title", U "Gamma");
               (U "Topics", U "First; Second"); (U "Notes", U " ")].

(** The query string of a request without parameters. *)
Definition bare_query : SearchQuery :=
  {| get_q := None; get_genre := None; get_author := None; get_year := None;
     get_group_by := None; get_order := None; get_languages := [] |}.

(** A form with a space for the author and a comma for the languages. *)
Definition comma_form : AdvancedForm :=
  {| form_author := U " "; form_year := []; form_genre := [];
     form_edition := []; form_name_type := []; form_languages := U " , " |}.

(** A session with one identifier in the search list. *)
Definition one_saved : Session := {[ SEARCH_LIST := [U "1"] ]}.

(** A log of two searches over [two_titles]. *)
Definition two_searches : list SearchLog :=
  [ {| query_text := U "q"; result_ids := [U "1"; U "2"]; num_results := 2 |};
    {| query_text := U "q"; result_ids := [U "2"]; num_results := 1 |} ].

End MoreSamples.
Import MoreSamples.

(** ** More vocabulary, for the properties beyond the specification *)

Module Vocabulary.

(** A table whose rows sit under their own identifier. *)
Definition well_keyed (db : Comics) : Prop :=
  ∀ k c, db !! k = Some c → bl_record_id c = k.

(** What a parsed part looks like: not empty, nothing to strip. *)
Definition trimmed (x : str) : Prop := x ≠ [] ∧ strip x = x.

(** The value a cell of an auxiliary column is stored as. *)
Definition other_value (val : str) : json_value :=
  if truthy val && contains_char SEMICOLON val
  then JList (split_semicolon_field (Some val))
  else JStr (normalize_text (Some val)).

(** The auxiliary column stored under a key of [other_fields]. *)
Definition other_column (key : str) : option str :=
  head (filter (λ col, replace SPACE (U "_") (lower col) = key) OTHER_KEYS).

(** The title after the rows of one identifier: the last one that is
    not empty, if any. *)
Definition last_title (rows : list Row) : str :=
  default [] (last (filter (λ t, t ≠ [])
                           ((λ row, rec_title (parse_row_to_record row)) <$> rows))).

(** A value of [other_fields] as the parser writes it. *)
Definition parsed_value (v : json_value) : Prop :=
  match v with
  | JStr s => strip s = s ∧ SEMICOLON ∉ s
  | JList l => Forall (λ x, x ≠ [] ∧ ¬ whitespace_only x) l
  end.

(** A filter that keeps the rows passing a test on the row alone. *)
Definition selection (F : QuerySet → QuerySet) : Prop :=
  ∃ keep : Comic → bool, ∀ qs, F qs = List.filter keep qs.

(** The seven filters of the library, each with a value. *)
Inductive library_filter (icontains_list : list str → str → bool)
    (icontains_text : str → str → bool)
    (icontains_dict : gmap str json_value → str → bool)
  : (QuerySet → QuerySet) → Prop :=
  | is_genre v : library_filter _ _ _ (λ qs, GenreFilter icontains_list qs v)
  | is_author v : library_filter _ _ _ (λ qs, AuthorFilter icontains_list qs v)
  | is_year v : library_filter _ _ _ (λ qs, YearFilter icontains_list qs v)
  | is_title v :
      library_filter _ _ _ (λ qs, TitleFilter icontains_list icontains_text qs v)
  | is_language v : library_filter _ _ _ (λ qs, LanguageFilter icontains_list qs v)
  | is_edition v : library_filter _ _ _ (λ qs, EditionFilter icontains_dict qs v)
  | is_name_type v : library_filter _ _ _ (λ qs, NameTypeFilter icontains_dict qs v).

(** Keyword arguments that are all absent or blank. *)
Definition blank_args (a : SearchArgs) : Prop :=
  blank_str (arg_title_query a) ∧ blank_str (arg_genre a)
  ∧ blank_str (arg_author a) ∧ blank_str (arg_year a)
  ∧ blank_str (arg_edition a) ∧ blank_lang (arg_languages a)
  ∧ blank_str (arg_name_type a).

(** A log whose identifiers all have a row in the table. *)
Definition log_resolves (db : Comics) (log : list SearchLog) : Prop :=
  Forall (λ e, Forall (λ rid, is_Some (db !! rid)) (result_ids e)) log.

(** How often a value occurs in a list. *)
Definition occurrences (x : str) (l : list str) : nat :=
  length (filter (λ y, y = x) l).

(** The greater count first. *)
Definition count_ge : relation (str * nat) := λ a b, (b.2 ≤ a.2)%nat.

(** The pairs of a report of the most frequent values of [l]: sorted by
    count, one pair for a value, each with the number of its occurrences,
    and no value left out that occurs more often than one that is in. *)
Definition most_frequent (l : list str) (items : list (str * nat)) : Prop :=
  Sorted count_ge items
  ∧ NoDup items.*1
  ∧ (∀ k n, (k, n) ∈ items → k ∈ l ∧ n = occurrences k l)
  ∧ (∀ k n k', (k, n) ∈ items → k' ∈ l → k' ∉ items.*1 →
               (occurrences k' l ≤ n)%nat).

(** The order of a list sorted on a key, code point by code point,
    ascending or, for [reverse], descending. *)
Definition sorted_by {A} (key : A → str) (reverse : bool) : relation A :=
  λ a b, if reverse then codepoint_le (key b) (key a)
         else codepoint_le (key a) (key b).

(** The rows of a group: a row once for each time the group's name is
    among its keys, in the order of the rows. *)
Definition bucket (keys : Comic → list str) (name : str) (rows : list Comic)
  : list Comic :=
  rows ≫= (λ c, replicate (occurrences name (keys c)) c).

(** The keys of a row without values, for the strategies of the service. *)
Definition or_unknown (values : list str) : list str :=
  if bool_decide (values = []) then [U "Unknown"] else values.

(** The identifiers kept in the session under a key. *)
Definition kept_ids (session : Session) (key : str) : list str :=
  default [] (session !! key).

(** The form of the advanced search with nothing but white space in it,
    and commas between the languages at most. *)
Definition blank_form (form : AdvancedForm) : Prop :=
  whitespace_only (form_author form) ∧ whitespace_only (form_year form)
  ∧ whitespace_only (form_genre form) ∧ whitespace_only (form_edition form)
  ∧ whitespace_only (form_name_type form)
  ∧ Forall whitespace_only (split COMMA (form_languages form)).

End Vocabulary.
Import Vocabulary.

(** * Properties *)

(** ** Strings: [strip], [split], [replace] *)

Section StrFacts.
Implicit Types (s w : str) (c : char).

Lemma lstrip_split s : ∃ w, s = w ++ lstrip s ∧ whitespace_only w.
Proof.
  induction s as [|c s [w [Hs Hw]]]; simpl.
  - exists []. split; [done | constructor].
  - destruct (is_space c) eqn:Hc.
    + exists (c :: w). split; [by rewrite Hs at 1 | by constructor].
    + exists []. split; [done | constructor].
Qed.

Lemma lstrip_no_lead s : no_lead (lstrip s).
Proof.
  induction s as [|c s IH]; simpl; [done|].
  destruct (is_space c) eqn:Hc; [done | by simpl].
Qed.

Lemma lstrip_id s : no_lead s → lstrip s = s.
Proof. destruct s as [|c s]; simpl; [done|]. by intros ->. Qed.

Lemma lstrip_whitespace s : whitespace_only s → lstrip s = [].
Proof. induction 1 as [|c s Hc _ IH]; simpl; [done|]. by rewrite Hc. Qed.

Lemma lstrip_nil s : lstrip s = [] → whitespace_only s.
Proof.
  intros H. destruct (lstrip_split s) as [w [Hs Hw]].
  rewrite H, app_nil_r in Hs. by subst.
Qed.

Lemma whitespace_only_rev s : whitespace_only (rev s) ↔ whitespace_only s.
Proof.
  unfold whitespace_only. split; intros H.
  - rewrite <- (rev_involutive s). by apply Forall_rev.
  - by apply Forall_rev.
Qed.

Lemma no_lead_whitespace s : no_lead s → whitespace_only s → s = [].
Proof.
  destruct s as [|c s]; [done|]. simpl. intros Hc H.
  inversion H; congruence.
Qed.

Lemma strip_nil_iff s : strip s = [] ↔ whitespace_only s.
Proof.
  unfold strip, rstrip. split.
  - intros H. apply (f_equal (@rev _)) in H. rewrite rev_involutive in H.
    simpl in H. apply lstrip_nil in H. apply (proj1 (whitespace_only_rev _)) in H.
    apply no_lead_whitespace in H; [|apply lstrip_no_lead].
    by apply lstrip_nil.
  - intros H. by rewrite (lstrip_whitespace s H).
Qed.

Lemma strip_split s :
  ∃ w1 w2, s = w1 ++ strip s ++ w2 ∧ whitespace_only w1 ∧ whitespace_only w2.
Proof.
  destruct (lstrip_split s) as [w1 [H1 Hw1]].
  destruct (lstrip_split (rev (lstrip s))) as [w2 [H2 Hw2]].
  exists w1, (rev w2). split; [|split; [done | by apply whitespace_only_rev]].
  unfold strip, rstrip. rewrite <- rev_app_distr, <- H2, rev_involutive. done.
Qed.

Lemma elem_of_strip s c : c ∈ strip s → c ∈ s.
Proof.
  destruct (strip_split s) as (w1 & w2 & Hs & _). intros Hc.
  rewrite Hs. set_solver.
Qed.

Lemma strip_no_lead s : no_lead (strip s).
Proof.
  unfold strip, rstrip.
  destruct (lstrip_split (rev (lstrip s))) as [w [Hs Hw]].
  pose proof (lstrip_no_lead s) as Hl.
  pose proof (lstrip_no_lead (rev (lstrip s))) as Hq.
  apply (f_equal (@rev _)) in Hs. rewrite rev_involutive, rev_app_distr in Hs.
  destruct (rev (lstrip (rev (lstrip s)))) as [|c q] eqn:E; [done|].
  rewrite Hs in Hl. done.
Qed.

Lemma strip_no_trail s : no_lead (rev (strip s)).
Proof. unfold strip, rstrip. rewrite rev_involutive. apply lstrip_no_lead. Qed.

Lemma strip_fixed s : no_lead s → no_lead (rev s) → strip s = s.
Proof.
  intros H1 H2. unfold strip, rstrip.
  by rewrite (lstrip_id s H1), (lstrip_id _ H2), rev_involutive.
Qed.

Lemma strip_strip s : strip (strip s) = strip s.
Proof. apply strip_fixed; [apply strip_no_lead | apply strip_no_trail]. Qed.

(** A stripped, non-empty string is not made of white space. *)
Lemma strip_not_blank s : strip s ≠ [] → ¬ whitespace_only (strip s).
Proof. intros Hne Hw. apply Hne. rewrite <- strip_strip. by apply strip_nil_iff. Qed.

Lemma split_no_sep sep s : sep ∉ s → split sep s = [s].
Proof.
  induction s as [|c s IH]; simpl; [done|]. intros Hn.
  destruct (N.eqb_spec c sep) as [->|Hne]; [set_solver|].
  rewrite IH; [done | set_solver].
Qed.

Lemma replace_cons old new c s :
  replace old new (c :: s) = (if c =? old then new else [c]) ++ replace old new s.
Proof. done. Qed.

Lemma replace_app old new s1 s2 :
  replace old new (s1 ++ s2) = replace old new s1 ++ replace old new s2.
Proof. unfold replace. by rewrite bind_app. Qed.

Lemma replace_absent old new s : old ∉ s → replace old new s = s.
Proof.
  induction s as [|c s IH]; [done|]. intros Hn. rewrite replace_cons.
  destruct (N.eqb_spec c old) as [->|Hne]; [set_solver|].
  rewrite IH; [done | set_solver].
Qed.

Lemma elem_of_replace_delete old s c : c ∈ replace old [] s → c ∈ s.
Proof.
  induction s as [|x s IH]; [done|]. rewrite replace_cons.
  destruct (x =? old); cbn [app]; intros H.
  - right. by apply IH.
  - apply elem_of_cons in H as [->|H]; [left | right; by apply IH].
Qed.

End StrFacts.

(** ** C5: the identifier parser *)

Section ParseIsbn.

Lemma replace_space_filter v :
  replace SPACE [] v = List.filter (λ c, negb (SPACE =? c)) v.
Proof.
  induction v as [|c v IH]; [done|]. rewrite replace_cons.
  cbn [List.filter]. rewrite (N.eqb_sym SPACE c).
  destruct (c =? SPACE); cbn [negb app]; by rewrite IH.
Qed.

Lemma blank_whitespace v : blank (Some v) = true → whitespace_only v.
Proof.
  simpl. intros H. apply strip_nil_iff.
  destruct v as [|c v]; [done|]. simpl in H.
  by destruct (strip (c :: v)).
Qed.

Lemma isbn_parts_blank v : whitespace_only v → isbn_parts v = [].
Proof.
  intros Hw. unfold isbn_parts.
  assert (Hw' : whitespace_only (replace SPACE [] v)).
  { apply Forall_forall. intros c Hc. apply elem_of_replace_delete in Hc.
    revert c Hc. by apply Forall_forall. }
  rewrite split_no_sep.
  - apply strip_nil_iff in Hw'. simpl. rewrite Hw'. done.
  - intros Hc. eapply Forall_forall in Hw'; [|exact Hc]. done.
Qed.

(** The guard at the head of [parse_isbn] changes nothing: the loop
    alone gives the same answer. *)
Lemma parse_isbn_loop v :
  parse_isbn (Some v) = match isbn_parts v with [] => [MISSING] | ps => ps end.
Proof.
  unfold parse_isbn. destruct (blank (Some v)) eqn:Hb; [|done].
  by rewrite (isbn_parts_blank v (blank_whitespace v Hb)).
Qed.

End ParseIsbn.

(** C5, as amended: for every input string the identifier parser takes out
    the characters U+0020 (and no other white space), splits on the comma,
    trims each part and drops the empty parts, and answers the sentinel
    alone when no part is left, the parts otherwise; an absent value gives
    the sentinel; the four examples of the specification hold. *)
Theorem parse_isbn_removes_spaces :
  (∀ v, parse_isbn (Some v) = parse_identifier_by (N.eqb SPACE) v)
  ∧ parse_isbn None = [U "missing"]
  ∧ parse_isbn (Some (U "")) = [U "missing"]
  ∧ parse_isbn (Some (U " , , ")) = [U "missing"]
  ∧ parse_isbn (Some (U "978-X,978-Y")) = [U "978-X"; U "978-Y"]
  ∧ parse_isbn (Some (U " 978-X , 978-Y ")) = [U "978-X"; U "978-Y"].
Proof.
  split.
  - intros v. rewrite parse_isbn_loop. unfold isbn_parts, parse_identifier_by.
    by rewrite replace_space_filter.
  - repeat split; vm_compute; reflexivity.
Qed.

(** C5 as written fails: a tab inside an identifier is white space, and
    the parser keeps it. *)
Lemma parse_isbn_keeps_tab :
  parse_isbn (Some [57; 9; 55]) = [[57; 9; 55]]
  ∧ parse_identifier_by is_space [57; 9; 55] = [[57; 55]]
  ∧ parse_isbn (Some [57; 9; 55]) ≠ parse_identifier_by is_space [57; 9; 55].
Proof. vm_compute. repeat split; discriminate. Qed.

(** ** C1 to C4: the upsert and the records it leaves in the table *)

Section Upsert.
Implicit Types (parsed : Parsed) (db : Comics) (row : Row) (f : multi_field).

Lemma truthy_false (s : str) : truthy s = false → s = [].
Proof. by destruct s. Qed.

Lemma elem_of_merged old new (x : str) :
  x ∈ merged true old new ↔ x ∈ old ∨ x ∈ new.
Proof. unfold merged. rewrite elem_of_elements, elem_of_list_to_set. set_solver. Qed.

Lemma NoDup_merged old new : NoDup (merged true old new).
Proof. apply NoDup_elements. Qed.

Lemma elem_of_merged_again pk old new (x : str) :
  x ∈ merged true (merged pk old new) new ↔ x ∈ merged pk old new.
Proof.
  rewrite elem_of_merged.
  destruct pk; [rewrite elem_of_merged|simpl]; tauto.
Qed.

Lemma merged_same_set pk old new :
  (list_to_set (merged true (merged pk old new) new) : gset str)
  = list_to_set (merged pk old new).
Proof.
  apply set_eq. intros x.
  rewrite !elem_of_list_to_set. apply elem_of_merged_again.
Qed.

Lemma upsert_lookup parsed db :
  (upsert_from_parsed parsed db).1 !! rec_bl_record_id parsed
  = Some (upsert_from_parsed parsed db).2.
Proof. apply lookup_insert_eq. Qed.

Lemma upsert_lookup_ne parsed db k :
  k ≠ rec_bl_record_id parsed → (upsert_from_parsed parsed db).1 !! k = db !! k.
Proof. intros H. unfold upsert_from_parsed. simpl. by rewrite lookup_insert_ne. Qed.

Lemma upsert_stored parsed db f :
  stored f (upsert_from_parsed parsed db).2
  = merged (bool_decide (is_Some (db !! rec_bl_record_id parsed)))
           (stored f (default (fresh (rec_bl_record_id parsed))
                              (db !! rec_bl_record_id parsed)))
           (parsed_of f parsed).
Proof. by destruct f. Qed.

Lemma parse_row_parsed_of row f :
  ∃ cell, parsed_of f (parse_row_to_record row) = split_semicolon_field cell.
Proof. destruct f; simpl; eauto. Qed.

(** What [split_semicolon_field] lets through. *)
Lemma split_semicolon_field_clean cell x :
  x ∈ split_semicolon_field cell → x ≠ [] ∧ ¬ whitespace_only x.
Proof.
  unfold split_semicolon_field. destruct cell as [v|]; [|set_solver].
  destruct (blank (Some v)); [set_solver|].
  intros Hx. apply list_elem_of_fmap in Hx as [p [-> Hp]].
  apply list_elem_of_filter in Hp as [Hp _].
  split; [done | by apply strip_not_blank].
Qed.

(** The table after one row: a record is either as it was or the one
    the upsert returned for an identifier that is not empty. *)
Lemma import_row_lookup db row k r :
  import_row db row !! k = Some r →
  (k ≠ rec_bl_record_id (parse_row_to_record row) ∨
   truthy (rec_bl_record_id (parse_row_to_record row)) = false) ∧ db !! k = Some r
  ∨ k = rec_bl_record_id (parse_row_to_record row) ∧ truthy k = true
    ∧ r = (upsert_from_parsed (parse_row_to_record row) db).2.
Proof.
  unfold import_row.
  destruct (truthy (rec_bl_record_id (parse_row_to_record row))) eqn:Ht;
    [|by left; split; [right|]].
  destruct (decide (k = rec_bl_record_id (parse_row_to_record row))) as [->|Hne].
  - rewrite upsert_lookup. intros [= <-]. by right.
  - rewrite upsert_lookup_ne by done. by left; split; [left|].
Qed.

Lemma import_rows_snoc db rows row :
  import_rows db (rows ++ [row]) = import_row (import_rows db rows) row.
Proof. unfold import_rows. by rewrite foldl_app. Qed.

Lemma imports_of_snoc k rows row :
  imports_of k (rows ++ [row])
  = imports_of k rows
    ++ (if decide (rec_bl_record_id (parse_row_to_record row) = k) then [row] else []).
Proof.
  unfold imports_of. by rewrite filter_app.
Qed.

Lemma table_inv_imports rows : table_inv rows (import_rows ∅ rows).
Proof.
  induction rows as [|row rows [IH1 IH2]] using rev_ind.
  { split; [intros k r Hk; cbn in Hk; by rewrite lookup_empty in Hk | done]. }
  rewrite import_rows_snoc. split.
  - intros k r Hk. rewrite imports_of_snoc.
    apply import_row_lookup in Hk as [[Hne Hk] | (-> & Ht & ->)].
    + destruct (IH1 k r Hk) as [Ht Hf]. split; [done|]. intros f.
      destruct (Hf f) as [Hc Hd]. split; [done|].
      case_decide as Heq; [|by rewrite app_nil_r].
      destruct Hne as [Hne|Hne]; [done | congruence].
    + split; [done|]. intros f. rewrite upsert_stored.
      destruct (parse_row_parsed_of row f) as [cell ->].
      destruct (import_rows ∅ rows !! _) as [old|] eqn:Hold.
      * rewrite bool_decide_eq_true_2 by eauto. cbn [default].
        split; [|intros _; apply NoDup_merged].
        intros x [Hx|Hx]%elem_of_merged.
        -- destruct (IH1 _ _ Hold) as [_ Hf]. by apply (Hf f).
        -- by apply split_semicolon_field_clean in Hx.
      * rewrite bool_decide_eq_false_2 by (by intros [? ?]). unfold merged.
        split; [intros x Hx; by apply split_semicolon_field_clean in Hx|].
        rewrite (IH2 _ Ht Hold), decide_True by done. cbn [app length]. lia.
  - intros k Ht Hk. rewrite imports_of_snoc.
    unfold import_row in Hk.
    destruct (truthy (rec_bl_record_id (parse_row_to_record row))) eqn:Hr.
    + destruct (decide (rec_bl_record_id (parse_row_to_record row) = k)) as [<-|Hne].
      * by rewrite upsert_lookup in Hk.
      * rewrite upsert_lookup_ne in Hk by done. by rewrite (IH2 k Ht Hk).
    + rewrite (IH2 k Ht Hk), decide_False; [done|]. intros <-. congruence.
Qed.



End Upsert.

(** C1: when the identifier of a parsed record is in the table already,
    the upsert stores and returns a record whose title is the parsed title
    if that is not empty and the old title otherwise, whose five
    multi-valued fields hold, without repetition, the values of the old
    field and of the parsed one, whose identifiers are those of the parsed
    record (the sentinel alone if it has none), and whose extra fields are
    the old ones overwritten key by key with the parsed ones. *)
Theorem upsert_existing_merges (parsed : Parsed) (db : Comics) (old : Comic) :
  db !! rec_bl_record_id parsed = Some old →
  let r := upsert_from_parsed parsed db in
  r.1 !! rec_bl_record_id parsed = Some r.2
  ∧ title r.2 = (if truthy (rec_title parsed) then rec_title parsed else title old)
  ∧ (∀ f, NoDup (stored f r.2)
          ∧ ∀ x, x ∈ stored f r.2 ↔ x ∈ stored f old ∨ x ∈ parsed_of f parsed)
  ∧ isbn r.2 = default [MISSING] (rec_isbn parsed)
  ∧ (∀ k, other_fields r.2 !! k
          = match default ∅ (rec_other_fields parsed) !! k with
            | Some v => Some v
            | None => other_fields old !! k
            end).
Proof.
  intros Hold r. subst r. split; [apply upsert_lookup|].
  split; [|split; [|split]].
  - unfold upsert_from_parsed. rewrite Hold. simpl.
    destruct (truthy (rec_title parsed)) eqn:Hp; [done|].
    destruct (truthy (title old)) eqn:Ho; [done|].
    by rewrite (truthy_false _ Hp), (truthy_false _ Ho).
  - intros f. rewrite upsert_stored, Hold.
    rewrite bool_decide_eq_true_2 by eauto. simpl.
    split; [apply NoDup_merged | intros x; apply elem_of_merged].
  - done.
  - intros k. unfold upsert_from_parsed. rewrite Hold. simpl.
    rewrite lookup_union.
    destruct (default ∅ (rec_other_fields parsed) !! k),
             (other_fields old !! k); done.
Qed.

(** C2, as amended: a row whose identifier is not empty, imported twice in
    a row onto any table, leaves a record whose five multi-valued fields
    hold the same values as after the first import, each of them once; the
    list after the second import is that after the first, up to order,
    exactly when the first holds no value twice. *)
Theorem import_row_twice_same_values (row : Row) (db : Comics) :
  truthy (rec_bl_record_id (parse_row_to_record row)) = true →
  ∃ r1 r2,
    import_row db row !! rec_bl_record_id (parse_row_to_record row) = Some r1
    ∧ import_row (import_row db row) row
        !! rec_bl_record_id (parse_row_to_record row) = Some r2
    ∧ ∀ f, (list_to_set (stored f r2) : gset str) = list_to_set (stored f r1)
           ∧ NoDup (stored f r2)
           ∧ (stored f r2 ≡ₚ stored f r1 ↔ NoDup (stored f r1)).
Proof.
  intros Ht. unfold import_row. rewrite Ht.
  generalize (parse_row_to_record row). intros parsed.
  eexists _, _. split; [apply upsert_lookup|]. split; [apply upsert_lookup|].
  intros f. rewrite (upsert_stored parsed (upsert_from_parsed parsed db).1).
  rewrite upsert_lookup. rewrite bool_decide_eq_true_2 by eauto. cbn [default].
  rewrite !(upsert_stored parsed db).
  split; [apply merged_same_set|]. split; [apply NoDup_merged|]. split.
  - intros Hp. rewrite <- Hp. apply NoDup_merged.
  - intros Hnd. apply NoDup_Permutation; [apply NoDup_merged | done |].
    intros x. apply elem_of_merged_again.
Qed.


(** C4, as amended: in a table built from nothing by parsing and upserting
    rows, no multi-valued field of a record holds an empty or
    white-space-only string, and none holds a value twice once the record
    has been imported at least twice (a first insert stores the parsed list
    as it is). *)
Theorem multi_valued_fields_clean (rows : list Row) (k : str) (r : Comic)
    (f : multi_field) :
  import_rows ∅ rows !! k = Some r →
  (∀ x, x ∈ stored f r → x ≠ [] ∧ ¬ whitespace_only x)
  ∧ ((2 ≤ length (imports_of k rows))%nat → NoDup (stored f r)).
Proof.
  intros Hk. destruct (table_inv_imports rows) as [H _].
  destruct (H k r Hk) as [_ Hf]. apply Hf.
Qed.

(** ** C9: the text cleaner *)

Section CleanFacts.
Variable is_word : char → bool.
Implicit Types (t : str) (c : char).

Abbreviation no_symbol := (Forall (λ c, is_symbol c = false)).
Abbreviation all_kept := (Forall (λ c, kept is_word c = true)).

Lemma replace_all_app t1 t2 :
  replace_all (t1 ++ t2) = replace_all t1 ++ replace_all t2.
Proof. unfold replace_all. cbn [foldl REPLACEMENTS]. by rewrite !replace_app. Qed.

(** The replacements one after the other amount to a single pass, since
    no replacement text holds a symbol. *)
Lemma replace_all_single c :
  replace_all [c] = if is_symbol c then replace_all [c] else [c].
Proof.
  destruct (is_symbol c) eqn:Hs; [done|].
  unfold is_symbol in Hs. cbn [REPLACEMENTS fmap list_fmap fst existsb] in Hs.
  repeat (apply orb_false_elim in Hs as [? Hs]).
  assert (Hne : ∀ k new, (c =? k) = false → replace k new [c] = [c]).
  { intros k new Hk. rewrite replace_cons, Hk. done. }
  unfold replace_all. cbn [foldl REPLACEMENTS fst snd].
  by rewrite !Hne.
Qed.

Lemma replace_all_symbol c : is_symbol c = true → no_symbol (replace_all [c]).
Proof.
  intros Hs. unfold is_symbol in Hs.
  cbn [REPLACEMENTS fmap list_fmap fst existsb] in Hs.
  repeat (apply orb_prop in Hs as [Hs|Hs];
          [apply N.eqb_eq in Hs; subst c; vm_compute; by repeat constructor|]).
  done.
Qed.

Lemma replace_all_no_symbol t : no_symbol (replace_all t).
Proof.
  induction t as [|c t IH]; [constructor|].
  change (c :: t) with ([c] ++ t). rewrite replace_all_app.
  apply Forall_app. split; [|done].
  destruct (is_symbol c) eqn:Hs; [by apply replace_all_symbol|].
  rewrite replace_all_single, Hs. by constructor.
Qed.

Lemma replace_all_id t : no_symbol t → replace_all t = t.
Proof.
  induction 1 as [|c t Hc _ IH]; [done|].
  change (c :: t) with ([c] ++ t). rewrite replace_all_app, IH.
  by rewrite replace_all_single, Hc.
Qed.

Lemma kept_space : kept is_word SPACE = true.
Proof. unfold kept. by rewrite orb_true_r. Qed.

Lemma scrub_kept t : all_kept (scrub is_word t).
Proof.
  induction t as [|c t IH]; [constructor|]. constructor; [|done].
  destruct (kept is_word c) eqn:Hc; [done | apply kept_space].
Qed.

Lemma scrub_id t : all_kept t → scrub is_word t = t.
Proof.
  induction 1 as [|c t Hc _ IH]; [done|]. unfold scrub in *.
  cbn [fmap list_fmap]. rewrite Hc. f_equal. exact IH.
Qed.

Lemma scrub_no_symbol t : no_symbol t → no_symbol (scrub is_word t).
Proof.
  induction 1 as [|c t Hc _ IH]; [constructor|]. constructor; [|done].
  by destruct (kept is_word c).
Qed.

Lemma squeeze_Forall (P : char → Prop) b t :
  P SPACE → Forall P t → Forall P (squeeze b t).
Proof.
  intros HP H. revert b. induction H as [|c t Hc _ IH]; intros b; [constructor|].
  cbn [squeeze]. destruct (is_space c), b; auto.
Qed.

Lemma squeezed_squeeze b t : squeezed b (squeeze b t) = true.
Proof.
  revert b. induction t as [|c t IH]; intros b; [done|]. cbn [squeeze].
  destruct (is_space c) eqn:Hc.
  - destruct b; [apply IH|]. cbn [squeezed]. by rewrite IH.
  - cbn [squeezed]. rewrite Hc. apply IH.
Qed.

Lemma squeeze_id b t : squeezed b t = true → squeeze b t = t.
Proof.
  revert b. induction t as [|c t IH]; intros b; [done|]. cbn [squeeze squeezed].
  destruct (is_space c).
  - destruct b; [done|]. cbn [negb andb].
    intros [Hc Ht]%andb_prop. apply N.eqb_eq in Hc. subst c. by rewrite IH.
  - intros Ht. by rewrite IH.
Qed.

Lemma squeezed_lstrip b b' t : squeezed b t = true → squeezed b' (lstrip t) = true.
Proof.
  revert b. induction t as [|c t IH]; intros b; [done|]. cbn [lstrip squeezed].
  destruct (is_space c) eqn:Hc.
  - intros [_ Ht]%andb_prop. by apply (IH true).
  - intros Ht. cbn [squeezed]. by rewrite Hc.
Qed.

Lemma squeezed_app_l b t1 t2 : squeezed b (t1 ++ t2) = true → squeezed b t1 = true.
Proof.
  revert b. induction t1 as [|c t1 IH]; intros b; [done|].
  cbn [app squeezed]. destruct (is_space c).
  - intros [H Ht]%andb_prop. rewrite H. by apply IH.
  - apply IH.
Qed.

Lemma rstrip_split t : ∃ w, t = rstrip t ++ w.
Proof.
  destruct (lstrip_split (rev t)) as [w [Ht _]]. exists (rev w).
  unfold rstrip. by rewrite <- rev_app_distr, <- Ht, rev_involutive.
Qed.

Lemma squeezed_strip t : squeezed false t = true → squeezed false (strip t) = true.
Proof.
  intros Ht. apply (squeezed_lstrip _ false) in Ht. unfold strip.
  destruct (rstrip_split (lstrip t)) as [w Hw]. rewrite Hw in Ht.
  by apply squeezed_app_l in Ht.
Qed.

Lemma Forall_strip (P : char → Prop) t : Forall P t → Forall P (strip t).
Proof.
  destruct (strip_split t) as (w1 & w2 & Ht & _). rewrite Ht at 1.
  by intros [_ [H _]%Forall_app]%Forall_app.
Qed.

(** A cleaned text is left as it is by each of the three steps. *)
Lemma clean_text_fixed t : clean_text is_word (clean_text is_word t) = clean_text is_word t.
Proof.
  unfold clean_text at 1.
  set (r := clean_text is_word t).
  assert (H1 : no_symbol r).
  { apply Forall_strip, squeeze_Forall; [done|].
    apply scrub_no_symbol, replace_all_no_symbol. }
  assert (H2 : all_kept r).
  { apply Forall_strip, squeeze_Forall; [apply kept_space | apply scrub_kept]. }
  assert (H3 : squeezed false r = true) by apply squeezed_strip, squeezed_squeeze.
  rewrite (replace_all_id r H1), (scrub_id r H2), (squeeze_id _ r H3).
  apply strip_strip.
Qed.

End CleanFacts.

(** C9: the cleaner, applied to its own result, changes nothing, whatever
    the text (and whichever characters [\w] accepts); it returns an absent
    text and the empty text as they are.  The title cleaner of the model,
    which takes the same three steps, changes nothing either on a title it
    has cleaned. *)
Theorem clean_special_characters_idempotent (is_word : char → bool) :
  (∀ x, clean_special_characters is_word (clean_special_characters is_word x)
        = clean_special_characters is_word x)
  ∧ clean_special_characters is_word None = None
  ∧ clean_special_characters is_word (Some []) = Some []
  ∧ (∀ c, get_clean_title is_word (set_title (get_clean_title is_word c) c)
          = get_clean_title is_word c).
Proof.
  split; [|split; [done|split; [done|]]].
  - intros [t|]; [|done]. cbn [clean_special_characters].
    destruct (truthy t) eqn:Ht; cbn [clean_special_characters]; [|by rewrite Ht].
    destruct (truthy (clean_text is_word t)); [by rewrite clean_text_fixed | done].
  - intros c. unfold get_clean_title. cbn [set_title title]. apply clean_text_fixed.
Qed.
(** ** C6 to C8: the filters and the search *)

Section FilterLoop.
Implicit Types (ps pre post : list Param) (qs : QuerySet).

Lemma apply_filters_applied_prefix ps qs :
  ∃ rest, describe <$> filter (λ p, param_present p = true) ps
          = (apply_filters ps qs).2 ++ rest.
Proof.
  revert qs. induction ps as [|p ps IH]; intros qs; [by exists []|].
  cbn [apply_filters]. rewrite filter_cons.
  destruct (param_present p) eqn:Hp.
  - rewrite decide_True by done. rewrite fmap_cons.
    destruct (param_filter p qs) as [|c qs'] eqn:Hq.
    + by eexists.
    + destruct (IH (c :: qs')) as [rest Hrest]. exists rest.
      cbn [snd]. by rewrite Hrest.
  - rewrite decide_False by done. apply IH.
Qed.

Lemma apply_filters_none ps qs :
  (apply_filters ps qs).2 = [] → (apply_filters ps qs).1 = qs.
Proof.
  revert qs. induction ps as [|p ps IH]; intros qs; [done|].
  cbn [apply_filters]. destruct (param_present p); [|apply IH].
  by destruct (param_filter p qs).
Qed.

(** Once a filter has been applied and has left nothing, what follows
    in the dict is not looked at. *)
Lemma apply_filters_break pre post qs :
  (apply_filters pre qs).2 ≠ [] → (apply_filters pre qs).1 = [] →
  apply_filters (pre ++ post) qs = apply_filters pre qs.
Proof.
  revert qs. induction pre as [|p pre IH]; intros qs; [done|].
  cbn [apply_filters app]. destruct (param_present p); [|apply IH].
  destruct (param_filter p qs) as [|c qs'] eqn:Hq; [done|].
  cbn [fst snd]. intros _ Hnil. rewrite IH; [done | | done].
  intros Hnone. apply apply_filters_none in Hnone. congruence.
Qed.

(** While something is left, every parameter that is present has had its
    filter applied, in the order of the dict. *)
Lemma apply_filters_all ps qs :
  (apply_filters ps qs).1 ≠ [] →
  (apply_filters ps qs).2 = describe <$> filter (λ p, param_present p = true) ps
  ∧ (apply_filters ps qs).1
    = foldl (λ q p, param_filter p q) qs (filter (λ p, param_present p = true) ps).
Proof.
  revert qs. induction ps as [|p ps IH]; intros qs; [done|].
  cbn [apply_filters]. rewrite filter_cons.
  destruct (param_present p) eqn:Hp.
  - rewrite decide_True by done.
    destruct (param_filter p qs) as [|c qs'] eqn:Hq; [done|].
    cbn [fst snd]. intros Hne. destruct (IH _ Hne) as [H1 H2].
    rewrite fmap_cons. cbn [foldl]. by rewrite H1, H2, Hq.
  - rewrite decide_False by done. apply IH.
Qed.

(** What the loop does, said without the loop: it applies the filters of
    the present parameters, in their order, up to and including the first
    one that leaves no row. *)
Lemma apply_filters_run ps qs :
  ∃ n, (n ≤ length (filter (λ p, param_present p = true) ps))%nat
       ∧ (∀ m, (0 < m < n)%nat →
               foldl (λ q p, param_filter p q) qs
                     (take m (filter (λ p, param_present p = true) ps)) ≠ [])
       ∧ (n = length (filter (λ p, param_present p = true) ps)
          ∨ ((0 < n)%nat
             ∧ foldl (λ q p, param_filter p q) qs
                     (take n (filter (λ p, param_present p = true) ps)) = []))
       ∧ apply_filters ps qs
         = (foldl (λ q p, param_filter p q) qs
                  (take n (filter (λ p, param_present p = true) ps)),
            describe <$> take n (filter (λ p, param_present p = true) ps)).
Proof.
  revert qs. induction ps as [|p ps IH]; intros qs.
  { exists 0%nat. cbn. split; [lia|]. split; [intros m Hm; lia|]. by split; [left|]. }
  cbn [apply_filters]. rewrite filter_cons. destruct (param_present p) eqn:Hp.
  - rewrite decide_True by done.
    destruct (param_filter p qs) as [|c qs'] eqn:Hq.
    + exists 1%nat. cbn [length take foldl fmap list_fmap]. rewrite Hq.
      split; [lia|]. split; [intros m Hm; lia|].
      split; [right; split; [lia | done] | done].
    + destruct (IH (c :: qs')) as (n & Hle & Hmin & Hend & Hrun). exists (S n).
      cbn [length take foldl fmap list_fmap]. rewrite Hq, Hrun. cbn [fst snd].
      split; [lia|]. split.
      { intros [|m] Hm; [lia|]. cbn [take foldl]. rewrite Hq.
        destruct m as [|m]; [done|]. apply Hmin. lia. }
      split; [|done].
      destruct Hend as [->|[Hn Hnil]]; [by left | right; split; [lia | done]].
  - rewrite decide_False by done. apply IH.
Qed.

End FilterLoop.

Section ServiceFacts.
Variable icontains_list : list str → str → bool.
Variable icontains_text : str → str → bool.
Variable icontains_dict : gmap str json_value → str → bool.
Variable title_le : relation str.
Context `{!RelDecision title_le}.
Variable repr_list : list str → str.

Lemma blank_of_blank_str v : blank_str v → blank v = true.
Proof.
  destruct v as [s|]; [|done]. cbn [blank_str blank].
  intros Hs%strip_nil_iff. rewrite Hs. apply orb_true_r.
Qed.





Lemma Sorted_take {A} (R : relation A) n (l : list A) :
  Sorted R l → Sorted R (take n l).
Proof.
  intros H. revert n. induction H as [|x l _ IH Hd]; intros [|n]; cbn [take];
    try constructor; [apply IH|].
  destruct Hd; destruct n; constructor; done.
Qed.

Lemma title_order_total : Total title_le → Total (title_order title_le).
Proof. intros H a b. apply (total title_le). Qed.

End ServiceFacts.

(** C6: the dict of [search] holds the seven parameters in the order
    genre, author, year, title, languages, edition, name_type, each with
    its own filter and present when its cleaned value is truthy.  [search]
    applies the filters of the present parameters in that order, up to and
    including the first one that leaves no row, or all of them when none
    does: the rows it sorts and cuts are those left by exactly these
    filters, and the text it logs joins exactly their pairs, so nothing of
    a parameter after that point is applied or logged. *)
Theorem search_filters_in_order_short_circuit
    (icontains_list : list str → str → bool) (icontains_text : str → str → bool)
    (icontains_dict : gmap str json_value → str → bool)
    (title_le : relation str) `{!RelDecision title_le}
    (repr_list : list str → str)
    (args : SearchArgs) (db : Comics) (log : list SearchLog) :
  let cleaned := _clean_search_params args in
  let ps := search_params icontains_list icontains_text icontains_dict repr_list
              cleaned in
  let present := filter (λ p, param_present p = true) ps in
  let qs := (map_to_list db).*2 in
  let after n := foldl (λ q p, param_filter p q) qs (take n present) in
  let found := search icontains_list icontains_text icontains_dict title_le
                 repr_list args db log in
  (∀ q, (λ p, (param_name p, param_present p, param_filter p q)) <$> ps
        = [ (U "genre", truthy (default [] (arg_genre cleaned)),
             GenreFilter icontains_list q (arg_genre cleaned));
            (U "author", truthy (default [] (arg_author cleaned)),
             AuthorFilter icontains_list q (arg_author cleaned));
            (U "year", truthy (default [] (arg_year cleaned)),
             YearFilter icontains_list q (arg_year cleaned));
            (U "title", truthy (default [] (arg_title_query cleaned)),
             TitleFilter icontains_list icontains_text q (arg_title_query cleaned));
            (U "languages", from_option lang_truthy false (arg_languages cleaned),
             LanguageFilter icontains_list q (arg_languages cleaned));
            (U "edition", truthy (default [] (arg_edition cleaned)),
             EditionFilter icontains_dict q (arg_edition cleaned));
            (U "name_type", truthy (default [] (arg_name_type cleaned)),
             NameTypeFilter icontains_dict q (arg_name_type cleaned)) ])
  ∧ ∃ n, (n ≤ length present)%nat
         ∧ (∀ m, (0 < m < n)%nat → after m ≠ [])
         ∧ (n = length present ∨ ((0 < n)%nat ∧ after n = []))
         ∧ found.1 = take MAX_RESULTS (order_by_title title_le (after n))
         ∧ query_text <$> last found.2
           = Some (match describe <$> take n present with
                   | [] => U "empty_search"
                   | applied => join (U " AND ") applied
                   end).
Proof.
  intros cleaned ps present qs after found. split; [done|].
  destruct (apply_filters_run ps qs) as (n & Hle & Hmin & Hend & Hrun).
  exists n. split; [done|]. split; [done|]. split; [done|].
  subst found. unfold search. fold cleaned. fold ps. fold qs.
  cbn [fst snd]. rewrite Hrun. cbn [fst snd]. by rewrite last_snoc.
Qed.

Section UntypedFacts.
Variable icontains_list : list str → str → bool.
Variable py_repr : Untyped.py_value → str.
Implicit Types (qs : QuerySet) (value : Untyped.py_value).






(** The cleaning of [search] does not raise on the annotated values
    either, and does what its typed reading does. *)
Lemma clean_value_typed (v : option str) (lv : option lang_value) :
  Untyped.clean_value py_repr (Untyped.of_str v)
  = inr (Untyped.of_str (clean_str v))
  ∧ Untyped.clean_value py_repr (Untyped.of_lang lv)
    = inr (Untyped.of_lang (clean_lang lv)).
Proof.
  split.
  - destruct v as [s|]; [|done]. cbn [Untyped.of_str Untyped.clean_value clean_str].
    by destruct (truthy (strip s)).
  - destruct lv as [[s|l]|]; [| |done];
      cbn [Untyped.of_lang Untyped.clean_value clean_lang].
    + by destruct (truthy (strip s)).
    + assert (H : Untyped.clean_items py_repr (Untyped.PStr <$> l)
                  = inr (Untyped.PStr
                           <$> (strip <$> filter (λ item, item ≠ [] ∧ strip item ≠ [])
                                                 l))).
      { induction l as [|item l IH]; [done|].
        rewrite fmap_cons.
        cbn [Untyped.clean_items Untyped.py_truthy Untyped.py_str].
        rewrite IH, filter_cons. destruct item as [|c item].
        { rewrite decide_False; [done|]. by intros [H _]. }
        cbn [truthy andb]. destruct (strip (c :: item)) as [|c' item'] eqn:Hs.
        - rewrite decide_False; [done|]. by intros [_ H].
        - rewrite decide_True by done. by rewrite !fmap_cons, Hs. }
      rewrite H.
      by destruct (strip <$> filter (λ item, item ≠ [] ∧ strip item ≠ []) l).
Qed.

End UntypedFacts.


(** C8, as amended: the rows that [search] returns are the first 10,000 of
    the rows left by the filters once sorted by the column [title] in the
    order of the database (no case is folded by [search]); they are sorted
    in that order and are at most 10,000. *)
Theorem search_sorted_by_column_and_capped
    (icontains_list : list str → str → bool) (icontains_text : str → str → bool)
    (icontains_dict : gmap str json_value → str → bool)
    (title_le : relation str) `{!RelDecision title_le} `{!Total title_le}
    (repr_list : list str → str)
    (args : SearchArgs) (db : Comics) (log : list SearchLog) :
  let results := (search icontains_list icontains_text icontains_dict
                    title_le repr_list args db log).1 in
  let left := (apply_filters
                 (search_params icontains_list icontains_text icontains_dict
                    repr_list (_clean_search_params args))
                 (map_to_list db).*2).1 in
  (∃ sorted, sorted ≡ₚ left ∧ Sorted (title_order title_le) sorted
             ∧ results = take MAX_RESULTS sorted)
  ∧ Sorted (title_order title_le) results
  ∧ (N.of_nat (length results) ≤ 10000)%N.
Proof.
  intros results left. subst results. unfold search. cbn [fst]. fold left.
  pose proof (title_order_total title_le _) as Htotal.
  split; [|split].
  - exists (order_by_title title_le left).
    split; [apply merge_sort_Permutation|]. split; [|done].
    apply (Sorted_merge_sort (title_order title_le)).
  - apply Sorted_take. apply (Sorted_merge_sort (title_order title_le)).
  - rewrite length_take. unfold MAX_RESULTS. lia.
Qed.

(** ** C10: the report of the top results *)

Section Reports.
Implicit Types (counts : list (str * nat)) (log : list SearchLog).

Lemma tally_bump rid r counts :
  tally rid (bump r counts)
  = (tally rid counts + if decide (r = rid) then 1 else 0)%nat.
Proof.
  unfold tally. induction counts as [|[k n] counts IH]; cbn [bump].
  - rewrite filter_cons, filter_nil. cbn [fst].
    repeat case_decide; try done; cbn; lia.
  - destruct (decide (k = r)) as [->|Hne].
    + rewrite !filter_cons. cbn [fst]. repeat case_decide; cbn; lia.
    + rewrite !filter_cons. cbn [fst]. rewrite <- Nat.add_comm in IH.
      destruct (decide (k = rid)) as [->|Hk].
      * rewrite decide_False in * by done. cbn. rewrite IH. lia.
      * rewrite IH. lia.
Qed.

Lemma bump_keys rid counts : NoDup counts.*1 → NoDup (bump rid counts).*1
  ∧ ∀ k, k ∈ (bump rid counts).*1 ↔ k = rid ∨ k ∈ counts.*1.
Proof.
  induction counts as [|[k n] counts IH]; cbn [bump fmap list_fmap fst].
  - intros _. split; [apply NoDup_singleton|].
    intros k. rewrite list_elem_of_singleton, elem_of_nil. tauto.
  - intros [Hk Hnd]%NoDup_cons. destruct (IH Hnd) as [IH1 IH2].
    destruct (decide (k = rid)) as [->|Hne]; cbn [fmap list_fmap fst].
    + split; [by apply NoDup_cons | intros k'; rewrite !elem_of_cons; tauto].
    + split; [|intros k'; rewrite !elem_of_cons, IH2; tauto].
      apply NoDup_cons. split; [|done]. rewrite IH2. tauto.
Qed.

(** [counts] of [top_results] holds each identifier of the log once, with
    the number of its occurrences in all the lists [result_ids]. *)
Lemma count_results_counts log :
  NoDup (count_results log).*1
  ∧ ∀ rid, tally rid (count_results log)
           = length (filter (λ x, x = rid) (mjoin (result_ids <$> log))).
Proof.
  unfold count_results.
  assert (Hin : ∀ ids counts, NoDup counts.*1 →
            NoDup (foldl (λ cs rid, bump rid cs) counts ids).*1
            ∧ ∀ rid, tally rid (foldl (λ cs rid, bump rid cs) counts ids)
                     = (tally rid counts + length (filter (λ x, x = rid) ids))%nat).
  { induction ids as [|r ids IH]; intros counts Hnd; cbn [foldl].
    - split; [done | intros rid; rewrite filter_nil; cbn; lia].
    - destruct (IH (bump r counts)) as [H1 H2]; [by apply bump_keys|].
      split; [done|]. intros rid. rewrite H2, tally_bump, filter_cons.
      case_decide; cbn [length]; lia. }
  assert (Hout : ∀ counts, NoDup counts.*1 →
            NoDup (foldl (λ counts entry,
                     foldl (λ cs rid, bump rid cs) counts (result_ids entry))
                     counts log).*1
            ∧ ∀ rid, tally rid (foldl (λ counts entry,
                       foldl (λ cs rid, bump rid cs) counts (result_ids entry))
                       counts log)
                     = (tally rid counts
                        + length (filter (λ x, x = rid)
                                    (mjoin (result_ids <$> log))))%nat).
  { induction log as [|e log IH]; intros counts Hnd; cbn [foldl].
    - split; [done | intros rid; cbn; lia].
    - destruct (Hin (result_ids e) counts Hnd) as [H1 H2].
      destruct (IH _ H1) as [H3 H4]. split; [done|]. intros rid.
      rewrite H4, H2. cbn [fmap list_fmap mjoin list_join].
      rewrite filter_app, length_app. symmetry. apply Nat.add_assoc. }
  destruct (Hout [] (NoDup_nil_2 (A := str))) as [H1 H2]. split; [done|].
  intros rid. by rewrite H2.
Qed.

Lemma insert_desc_Permutation x counts : insert_desc x counts ≡ₚ x :: counts.
Proof.
  induction counts as [|y counts IH]; cbn [insert_desc]; [done|].
  destruct (y.2 <? x.2)%nat; [done|]. rewrite IH. apply Permutation_swap.
Qed.

Lemma insert_desc_Sorted x counts :
  Sorted (λ a b, (b.2 ≤ a.2)%nat) counts →
  Sorted (λ a b, (b.2 ≤ a.2)%nat) (insert_desc x counts).
Proof.
  induction 1 as [|y counts Hs IH Hd]; cbn [insert_desc].
  - by repeat constructor.
  - destruct (Nat.ltb_spec y.2 x.2) as [Hlt|Hge].
    + constructor; [by constructor|]. constructor. lia.
    + constructor; [done|]. destruct Hd as [|z counts Hz]; cbn [insert_desc].
      * by constructor.
      * destruct (z.2 <? x.2)%nat; by constructor.
Qed.

(** The items sorted: the same items, the greater counts first. *)
Lemma sorted_desc_sorted items :
  sorted_desc items ≡ₚ items
  ∧ Sorted (λ a b, (b.2 ≤ a.2)%nat) (sorted_desc items).
Proof.
  unfold sorted_desc.
  assert (H : ∀ acc, Sorted (λ a b : str * nat, (b.2 ≤ a.2)%nat) acc →
            foldl (λ acc x, insert_desc x acc) acc items ≡ₚ acc ++ items
            ∧ Sorted (λ a b, (b.2 ≤ a.2)%nat)
                     (foldl (λ acc x, insert_desc x acc) acc items)).
  { induction items as [|x items IH]; intros acc Hacc; cbn [foldl].
    - by rewrite app_nil_r.
    - destruct (IH (insert_desc x acc)) as [H1 H2];
        [by apply insert_desc_Sorted|].
      split; [|done]. rewrite H1, insert_desc_Permutation.
      apply Permutation_middle. }
  destruct (H []) as [H1 H2]; [constructor | done].
Qed.

End Reports.

(** C10, on the code: an identifier of the log that no row of the table
    carries stays in the report of [top_results], paired with [None];
    the sibling report [names_in_more_than_n_results] does leave it out.
    Whatever the table, the report has one pair for each of the counted
    identifiers that the slice keeps. *)
Theorem top_results_keeps_unresolved :
  top_results 10 [ {| query_text := U "genre=Fantasy";
                      result_ids := [U "001"]; num_results := 1 |} ] ∅
  = [(None, 1%nat)]
  ∧ names_in_more_than_n_results 0
      [ {| query_text := U "genre=Fantasy";
           result_ids := [U "001"]; num_results := 1 |} ] ∅ = []
  ∧ ∀ limit log db,
      (top_results limit log db).*2
      = (slice_to limit (sorted_desc (count_results log))).*2.
Proof.
  split; [by vm_compute|]. split; [by vm_compute|].
  intros limit log db. unfold top_results.
  rewrite <- list_fmap_compose. done.
Qed.

(** ** The claims at concrete inputs *)

(** The two merges that the specification gives as examples. *)
Example upsert_unions_authors :
  (list_to_set
     (authors (upsert_from_parsed (parsed_authors (U "1") [U "B"])
                 (upsert_from_parsed (parsed_authors (U "1") [U "A"]) ∅).1).2)
   : gset str) = {[ U "A"; U "B" ]}.
Proof. by vm_compute. Qed.

Example upsert_overwrites_isbn :
  isbn (upsert_from_parsed (parsed_isbn (U "1") [U "missing"])
          (upsert_from_parsed (parsed_isbn (U "1") [U "X"]) ∅).1).2
  = [U "missing"].
Proof. by vm_compute. Qed.

Lemma upsert_existing_merges_witness :
  title (upsert_from_parsed (parse_row_to_record row_watchmen_again)
           (import_rows ∅ [row_watchmen])).2 = U "Watchmen"
  ∧ NoDup (authors (upsert_from_parsed (parse_row_to_record row_watchmen_again)
                      (import_rows ∅ [row_watchmen])).2).
Proof.
  destruct (upsert_existing_merges (parse_row_to_record row_watchmen_again)
              (import_rows ∅ [row_watchmen])
              (default (fresh []) (import_rows ∅ [row_watchmen] !! U "003")))
    as (_ & Ht & Hf & _); [vm_compute; reflexivity|].
  split; [rewrite Ht; vm_compute; reflexivity | apply (Hf Authors)].
Defined.

Lemma import_row_twice_same_values_witness :
  truthy (rec_bl_record_id (parse_row_to_record row_watchmen)) = true
  ∧ ∃ r1 r2,
      import_row ∅ row_watchmen !! rec_bl_record_id (parse_row_to_record row_watchmen)
        = Some r1
      ∧ import_row (import_row ∅ row_watchmen) row_watchmen
          !! rec_bl_record_id (parse_row_to_record row_watchmen) = Some r2
      ∧ ∀ f, (list_to_set (stored f r2) : gset str) = list_to_set (stored f r1)
             ∧ NoDup (stored f r2)
             ∧ (stored f r2 ≡ₚ stored f r1 ↔ NoDup (stored f r1)).
Proof.
  split; [reflexivity|].
  apply (import_row_twice_same_values row_watchmen ∅). reflexivity.
Defined.

(** C2 as written fails: an author named twice in the cell is stored twice
    by the first import and once by the second, so the two lists are not
    the same, in whatever order. *)
Lemma second_import_drops_repetition :
  ∃ r1 r2,
    import_row ∅ row_repeated_author !! U "1" = Some r1
    ∧ import_row (import_row ∅ row_repeated_author) row_repeated_author !! U "1"
      = Some r2
    ∧ stored Authors r1 = [U "A"; U "A"]
    ∧ stored Authors r2 = [U "A"]
    ∧ ¬ stored Authors r2 ≡ₚ stored Authors r1.
Proof.
  eexists _, _. split; [by vm_compute|]. split; [by vm_compute|].
  split; [by vm_compute|]. split; [by vm_compute|].
  intros H%Permutation_length. by vm_compute in H.
Qed.



(** C4 as written fails: a first insert stores an author named twice in
    the cell twice. *)
Lemma first_insert_keeps_repetition :
  ∃ r, import_rows ∅ [row_repeated_author] !! U "1" = Some r
       ∧ stored Authors r = [U "A"; U "A"]
       ∧ ¬ NoDup (stored Authors r).
Proof.
  eexists. split; [vm_compute; reflexivity|]. split; [reflexivity|].
  intros H. apply NoDup_cons in H as [H _]. apply H. by left.
Qed.

Lemma multi_valued_fields_clean_witness :
  (∀ x, x ∈ authors (default (fresh [])
                       (import_rows ∅ [row_watchmen; row_watchmen_again] !! U "003")) →
        x ≠ [] ∧ ¬ whitespace_only x)
  ∧ NoDup (authors (default (fresh [])
                      (import_rows ∅ [row_watchmen; row_watchmen_again] !! U "003"))).
Proof.
  destruct (multi_valued_fields_clean [row_watchmen; row_watchmen_again] (U "003")
              (default (fresh [])
                 (import_rows ∅ [row_watchmen; row_watchmen_again] !! U "003"))
              Authors) as [Hc Hd]; [vm_compute; reflexivity|].
  split; [exact Hc | apply Hd; vm_compute; lia].
Defined.

Lemma search_filters_in_order_witness :
  (search has_element same_text no_entry codepoint_le first_or_empty
     horror_by_a two_titles []).1 = []
  ∧ query_text <$> last (search has_element same_text no_entry codepoint_le
                           first_or_empty horror_by_a two_titles []).2
    = Some (U "genre=Horror").
Proof.
  destruct (search_filters_in_order_short_circuit has_element same_text no_entry
              codepoint_le first_or_empty horror_by_a two_titles [])
    as (_ & n & Hle & Hmin & Hend & Hrows & Hlog).
  assert (Hn : n = 1%nat).
  { destruct n as [|[|[|n]]].
    - destruct Hend as [Hend|[Hend _]]; [by vm_compute in Hend | lia].
    - done.
    - exfalso. apply (Hmin 1%nat); [lia|]. by vm_compute.
    - vm_compute in Hle. lia. }
  subst n. rewrite Hrows, Hlog. split; by vm_compute.
Defined.



Lemma codepoint_le_total : Total codepoint_le.
Proof.
  intros a. unfold codepoint_le. induction a as [|x a IH]; intros [|y b];
    cbn [codepoint_leb]; auto.
  destruct (N.ltb_spec x y), (N.ltb_spec y x), (N.eqb_spec x y), (N.eqb_spec y x);
    cbn [orb andb]; auto; lia.
Qed.

(** C8 as written fails where the column is compared code point by code
    point, as SQLite does: the upper-case title comes first. *)
Lemma search_puts_upper_case_first :
  title <$> (search has_element same_text no_entry codepoint_le first_or_empty
               no_args two_titles []).1 = [U "B"; U "a"]
  ∧ ¬ Sorted caseless_le
        (title <$> (search has_element same_text no_entry codepoint_le
                      first_or_empty no_args two_titles []).1).
Proof.
  split; [by vm_compute|].
  replace (title <$> _) with [U "B"; U "a"] by (by vm_compute).
  intros H. apply Sorted_inv in H as [_ H]. apply HdRel_inv in H.
  by vm_compute in H.
Qed.

Lemma search_sorted_by_column_witness :
  Sorted (title_order codepoint_le)
    (search has_element same_text no_entry codepoint_le first_or_empty
       no_args two_titles []).1
  ∧ (N.of_nat (length (search has_element same_text no_entry codepoint_le
                         first_or_empty no_args two_titles []).1) ≤ 10000)%N.
Proof.
  destruct (search_sorted_by_column_and_capped has_element same_text no_entry
              codepoint_le (Total0 := codepoint_le_total) first_or_empty
              no_args two_titles []) as (_ & Hs & Hl).
  split; [exact Hs | exact Hl].
Defined.

(** * Beyond the specification *)

(** ** Lists *)

Section ListFacts.
Context {A : Type} (P : A → Prop) `{!∀ x, Decision (P x)}.

Lemma filter_none (l : list A) : Forall (λ x, ¬ P x) l → filter P l = [].
Proof.
  induction 1 as [|x l Hx _ IH]; [done|]. by rewrite filter_cons_False.
Qed.

Lemma filter_all (l : list A) : Forall P l → filter P l = l.
Proof.
  induction 1 as [|x l Hx _ IH]; [done|]. rewrite filter_cons_True by done.
  by rewrite IH.
Qed.

End ListFacts.

(** ** The parsers *)

Section ParserFacts.
Implicit Types (s p : str) (c sep : char).

Lemma split_pieces sep s :
  Forall (λ p, (sep ∉ p) ∧ (∀ c, c ∈ p → c ∈ s)) (split sep s).
Proof.
  induction s as [|x s IH]; cbn [split].
  { constructor; [|constructor]. split; [apply not_elem_of_nil | done]. }
  destruct (N.eqb_spec x sep) as [->|Hne].
  - constructor.
    + split; [apply not_elem_of_nil | intros c Hc; by apply elem_of_nil in Hc].
    + eapply Forall_impl; [exact IH|]. intros p [H1 H2]. split; [done|].
      intros c Hc. right. by apply H2.
  - destruct (split sep s) as [|p ps].
    { constructor; [|constructor]. split.
      - intros Hs%list_elem_of_singleton. congruence.
      - intros c ->%list_elem_of_singleton. left. }
    inversion IH as [|? ? [H1 H2] Hps]; subst. constructor.
    + split.
      * intros [?|?]%elem_of_cons; [congruence | done].
      * intros c [->|Hc]%elem_of_cons; [left | right; by apply H2].
    + eapply Forall_impl; [exact Hps|]. intros q [H3 H4]. split; [done|].
      intros c Hc. right. by apply H4.
Qed.

Lemma strip_trimmed s : strip s ≠ [] → trimmed (strip s).
Proof. intros H. split; [done | apply strip_strip]. Qed.

Lemma not_elem_of_strip c s : c ∉ s → c ∉ strip s.
Proof. intros H Hc. by apply H, elem_of_strip. Qed.

Lemma not_elem_of_replace_delete c s : c ∉ replace c [] s.
Proof.
  induction s as [|x s IH]; [apply not_elem_of_nil|]. rewrite replace_cons.
  destruct (N.eqb_spec x c) as [->|Hne]; cbn [app]; [done|].
  intros [?|?]%elem_of_cons; [congruence | done].
Qed.

End ParserFacts.

(** X1: every part that [split_semicolon_field] returns is non-empty, has
    no white space at either end and holds no semicolon; a cell that is
    absent or made of white space gives no part. *)
Theorem split_semicolon_field_parts (cell : option str) :
  Forall (λ x, trimmed x ∧ (SEMICOLON ∉ x)) (split_semicolon_field cell)
  ∧ (blank_str cell → split_semicolon_field cell = []).
Proof.
  split.
  - unfold split_semicolon_field. destruct cell as [v|]; [|constructor].
    destruct (blank (Some v)); [constructor|].
    apply Forall_fmap, Forall_forall. intros p [Hp Hin]%list_elem_of_filter.
    pose proof (split_pieces SEMICOLON v) as Hs.
    eapply Forall_forall in Hs as [Hs _]; [|exact Hin].
    split; [by apply strip_trimmed | by apply not_elem_of_strip].
  - intros Hb. unfold split_semicolon_field. destruct cell as [v|]; [|done].
    by rewrite blank_of_blank_str.
Qed.

(** X2: [parse_isbn] never returns the empty list, and every identifier it
    returns is non-empty, has no white space at either end, and holds
    neither a comma nor a U+0020. *)
Theorem parse_isbn_parts (cell : option str) :
  parse_isbn cell ≠ []
  ∧ Forall (λ x, trimmed x ∧ (COMMA ∉ x) ∧ (SPACE ∉ x)) (parse_isbn cell).
Proof.
  assert (Hm : trimmed MISSING ∧ (COMMA ∉ MISSING) ∧ (SPACE ∉ MISSING)).
  { split; [split; [done | by vm_compute]|].
    split; intros H; vm_compute in H; 
      repeat (apply elem_of_cons in H as [H|H]; [discriminate|]);
      by apply elem_of_nil in H. }
  destruct cell as [v|]; [|split; [done | by constructor]].
  rewrite parse_isbn_loop.
  assert (Hparts : Forall (λ x, trimmed x ∧ (COMMA ∉ x) ∧ (SPACE ∉ x)) (isbn_parts v)).
  { unfold isbn_parts. apply Forall_forall.
    intros x [Hx [p [-> Hin]]%list_elem_of_fmap]%list_elem_of_filter.
    pose proof (split_pieces COMMA (replace SPACE [] v)) as Hs.
    eapply Forall_forall in Hs as [H1 H2]; [|exact Hin].
    split; [by apply strip_trimmed|].
    split; [by apply not_elem_of_strip|]. apply not_elem_of_strip.
    intros Hc. apply H2 in Hc. by apply not_elem_of_replace_delete in Hc. }
  destruct (isbn_parts v) as [|p ps]; [|done].
  split; [done | by constructor].
Qed.

Lemma other_fold (row : Row) (keys : list str) (m : gmap str json_value) (k : str) :
  NoDup ((λ col, replace SPACE (U "_") (lower col)) <$> keys) →
  foldl (other_step row) m keys !! k
  = match head (filter (λ col, replace SPACE (U "_") (lower col) = k) keys) with
    | Some col => match row !! col with
                  | Some val => Some (other_value val)
                  | None => m !! k
                  end
    | None => m !! k
    end.
Proof.
  revert m. induction keys as [|col keys IH]; intros m; [done|].
  rewrite fmap_cons. intros [Hcol Hnd]%NoDup_cons.
  cbn [foldl]. rewrite (IH _ Hnd), filter_cons.
  destruct (decide (replace SPACE (U "_") (lower col) = k)) as [<-|Hne].
  - assert (Hnone : filter (λ c, replace SPACE (U "_") (lower c)
                                 = replace SPACE (U "_") (lower col)) keys = []).
    { apply filter_none, Forall_forall. intros c Hc Heq. apply Hcol.
      rewrite <- Heq. apply list_elem_of_fmap. eauto. }
    rewrite Hnone. cbn [head]. unfold other_step.
    destruct (row !! col); [apply lookup_insert_eq | done].
  - assert (Hsame : other_step row m col !! k = m !! k).
    { unfold other_step. destruct (row !! col); [|done].
      by rewrite lookup_insert_ne. }
    by rewrite Hsame.
Qed.

Lemma other_fields_lookup (row : Row) (key : str) :
  default ∅ (rec_other_fields (parse_row_to_record row)) !! key
  = (col ← other_column key; other_value <$> row !! col).
Proof.
  unfold parse_row_to_record. cbn [rec_other_fields default from_option id].
  rewrite other_fold by (apply (bool_decide_unpack _); by vm_compute).
  unfold other_column. rewrite lookup_empty.
  destruct (head _) as [col|]; [|done]. cbn [mbind option_bind].
  by destruct (row !! col).
Qed.

(** X3: the extra fields of a parsed row have a key exactly for the
    auxiliary columns that the row has, under the column's name in lower
    case with underscores, and the value is the list of the parts when the
    cell holds a semicolon, the stripped cell otherwise. *)
Theorem parse_row_other_fields (row : Row) (key : str) :
  default ∅ (rec_other_fields (parse_row_to_record row)) !! key
  = (col ← other_column key; other_value <$> row !! col).
Proof. apply other_fields_lookup. Qed.


(** ** The table after an import *)

Section ImportFacts.
Implicit Types (rows : list Row) (row : Row) (db : Comics) (k : str).

Lemma upsert_lookup_any (parsed : Parsed) db k :
  (upsert_from_parsed parsed db).1 !! k
  = if decide (k = rec_bl_record_id parsed)
    then Some (upsert_from_parsed parsed db).2 else db !! k.
Proof.
  case_decide as Hk; [subst k; apply upsert_lookup | by apply upsert_lookup_ne].
Qed.

Lemma upsert_bl_record_id (parsed : Parsed) db :
  well_keyed db →
  bl_record_id (upsert_from_parsed parsed db).2 = rec_bl_record_id parsed.
Proof.
  intros Hdb. unfold upsert_from_parsed. cbn [snd bl_record_id].
  destruct (db !! rec_bl_record_id parsed) as [old|] eqn:Hold; [|done].
  by apply Hdb.
Qed.

Lemma upsert_title (parsed : Parsed) db :
  title (upsert_from_parsed parsed db).2
  = if truthy (rec_title parsed) then rec_title parsed
    else title (default (fresh (rec_bl_record_id parsed))
                        (db !! rec_bl_record_id parsed)).
Proof.
  unfold upsert_from_parsed. cbn [snd title].
  destruct (truthy (rec_title parsed)) eqn:Hp; [done|].
  destruct (truthy (title _)) eqn:Ho; [done|].
  by rewrite (truthy_false _ Hp), (truthy_false _ Ho).
Qed.

Lemma last_title_snoc rows row :
  last_title (rows ++ [row])
  = if truthy (rec_title (parse_row_to_record row))
    then rec_title (parse_row_to_record row) else last_title rows.
Proof.
  unfold last_title. rewrite fmap_app, filter_app. cbn [fmap list_fmap].
  rewrite filter_cons, filter_nil.
  destruct (rec_title (parse_row_to_record row)) as [|c t] eqn:Ht; cbn [truthy].
  - rewrite decide_False by (by intros H). by rewrite app_nil_r.
  - rewrite decide_True by done. by rewrite last_snoc.
Qed.

Lemma normalize_text_fixed (cell : option str) :
  strip (normalize_text cell) = normalize_text cell.
Proof. destruct cell; [apply strip_strip | done]. Qed.

(** Every record of the table, read off the rows that carried its
    identifier. *)
Lemma import_rows_snapshot rows k :
  match import_rows ∅ rows !! k with
  | None => k = [] ∨ imports_of k rows = []
  | Some r =>
      k ≠ [] ∧ bl_record_id r = k
      ∧ (∃ row, last (imports_of k rows) = Some row
                ∧ isbn r = parse_isbn (isbn_cell row))
      ∧ title r = last_title (imports_of k rows)
      ∧ ∀ f x, x ∈ stored f r
               ↔ ∃ row, row ∈ imports_of k rows
                        ∧ x ∈ parsed_of f (parse_row_to_record row)
  end.
Proof.
  revert k. induction rows as [|row rows IH] using rev_ind; intros k.
  { cbn. rewrite lookup_empty. by right. }
  rewrite import_rows_snoc, imports_of_snoc. specialize (IH k).
  unfold import_row.
  destruct (truthy (rec_bl_record_id (parse_row_to_record row))) eqn:Ht.
  - rewrite upsert_lookup_any.
    destruct (decide (k = rec_bl_record_id (parse_row_to_record row))) as [->|Hne].
    + rewrite decide_True by done.
      set (parsed := parse_row_to_record row) in *.
      set (db := import_rows ∅ rows) in *.
      split; [by intros Hk; rewrite Hk in Ht|].
      split.
      { unfold upsert_from_parsed. cbn [snd bl_record_id].
        destruct (db !! rec_bl_record_id parsed); [by destruct IH as (_ & ? & _) | done]. }
      split; [exists row; split; [apply last_snoc | done]|].
      split.
      { rewrite upsert_title, last_title_snoc. fold parsed.
        destruct (truthy (rec_title parsed)); [done|].
        destruct (db !! rec_bl_record_id parsed).
        - by destruct IH as (_ & _ & _ & ? & _).
        - destruct IH as [Hk|Hk]; [by rewrite Hk in Ht | by rewrite Hk]. }
      intros f x. rewrite upsert_stored.
      destruct (db !! rec_bl_record_id parsed) as [old|].
      * destruct IH as (_ & _ & _ & _ & IH).
        rewrite bool_decide_eq_true_2 by eauto. cbn [default].
        rewrite elem_of_merged, IH. split.
        -- intros [(row' & Hin & Hx)|Hx];
             [exists row' | exists row]; (split; [|done]);
             rewrite elem_of_app; [by left | right; by left].
        -- intros (row' & [Hin| ->%list_elem_of_singleton]%elem_of_app & Hx);
             [left; eauto | by right].
      * destruct IH as [Hk|Hk]; [by rewrite Hk in Ht|].
        rewrite bool_decide_eq_false_2 by (by intros [? ?]). unfold merged.
        rewrite Hk. cbn [app]. split.
        -- intros Hx. exists row. split; [left | done].
        -- by intros (row' & ->%list_elem_of_singleton & Hx).
    + rewrite decide_False by done. by rewrite app_nil_r.
  - destruct (decide (rec_bl_record_id (parse_row_to_record row) = k)) as [Heq|Hne];
      [|by rewrite app_nil_r].
    apply truthy_false in Ht. rewrite Ht in Heq. subst k.
    match goal with |- match ?t with _ => _ end => destruct t end; [|by left].
    destruct IH as [Hnil _]. by destruct Hnil.
Qed.

Lemma elem_of_imports_of k rows row :
  row ∈ imports_of k rows
  ↔ row ∈ rows ∧ rec_bl_record_id (parse_row_to_record row) = k.
Proof. unfold imports_of. rewrite list_elem_of_filter. tauto. Qed.

Lemma import_rows_well_keyed rows : well_keyed (import_rows ∅ rows).
Proof.
  intros k r Hk. pose proof (import_rows_snapshot rows k) as H.
  rewrite Hk in H. by destruct H as (_ & ? & _).
Qed.

Lemma contains_char_false c (s : str) : contains_char c s = false → c ∉ s.
Proof.
  unfold contains_char. induction s as [|x s IH]; cbn [existsb].
  - intros _. apply not_elem_of_nil.
  - intros [Hx Hs]%orb_false_elim. apply N.eqb_neq in Hx.
    intros [?|?]%elem_of_cons; [done | by apply IH].
Qed.

Lemma other_value_parsed (val : str) : parsed_value (other_value val).
Proof.
  unfold other_value. destruct (truthy val && contains_char SEMICOLON val) eqn:Hv.
  - cbn [parsed_value]. apply Forall_forall. intros x Hx.
    by apply split_semicolon_field_clean in Hx.
  - cbn [parsed_value normalize_text]. split; [apply strip_strip|].
    apply andb_false_iff in Hv as [Hv|Hv].
    + apply truthy_false in Hv. subst val. apply not_elem_of_nil.
    + by apply not_elem_of_strip, contains_char_false.
Qed.

Lemma import_rows_other_fields rows k r key v :
  import_rows ∅ rows !! k = Some r → other_fields r !! key = Some v →
  parsed_value v.
Proof.
  revert k r. induction rows as [|row rows IH] using rev_ind; intros k r.
  { intros Hk. cbn in Hk. by rewrite lookup_empty in Hk. }
  rewrite import_rows_snoc.
  intros [[_ Hk] | (_ & _ & ->)]%import_row_lookup; [by apply (IH k r)|].
  unfold upsert_from_parsed. cbn [snd other_fields].
  intros [Hv | [_ Hv]]%lookup_union_Some_raw.
  - rewrite other_fields_lookup in Hv.
    destruct (other_column key) as [col|]; [|done]. cbn in Hv.
    destruct (row !! col); [|done]. injection Hv as <-. apply other_value_parsed.
  - destruct (import_rows ∅ rows !! _) as [old|] eqn:Hold; [by eapply IH|].
    cbn in Hv. by rewrite lookup_empty in Hv.
Qed.

End ImportFacts.

(** X4: an upsert changes the table under the identifier of the parsed
    record and nowhere else, and a table whose rows sit under their own
    identifier stays so: the record returned carries the identifier. *)
Theorem upsert_touches_one_record (parsed : Parsed) (db : Comics) :
  well_keyed db →
  (∀ k, (upsert_from_parsed parsed db).1 !! k
        = if decide (k = rec_bl_record_id parsed)
          then Some (upsert_from_parsed parsed db).2 else db !! k)
  ∧ bl_record_id (upsert_from_parsed parsed db).2 = rec_bl_record_id parsed
  ∧ well_keyed (upsert_from_parsed parsed db).1.
Proof.
  intros Hdb. split; [intros k; apply upsert_lookup_any|].
  split; [by apply upsert_bl_record_id|].
  intros k c. rewrite upsert_lookup_any. case_decide as Hk.
  - intros [= <-]. subst k. by apply upsert_bl_record_id.
  - apply Hdb.
Qed.

Lemma upsert_touches_one_record_witness :
  bl_record_id (upsert_from_parsed (parsed_authors (U "1") [U "A"]) ∅).2 = U "1".
Proof.
  destruct (upsert_touches_one_record (parsed_authors (U "1") [U "A"]) ∅)
    as (_ & H & _); [|exact H].
  intros k c Hk. by rewrite lookup_empty in Hk.
Defined.

(** X5: in a table built by importing rows into an empty one, a record is
    stored under its own identifier, which is not empty and has no white
    space at either end. *)
Theorem imported_record_key (rows : list Row) (k : str) (r : Comic) :
  import_rows ∅ rows !! k = Some r →
  bl_record_id r = k ∧ trimmed k.
Proof.
  intros Hk. pose proof (import_rows_snapshot rows k) as H. rewrite Hk in H.
  destruct H as (Hne & Hid & (row & Hlast & _) & _). split; [done|].
  split; [done|]. apply last_Some_elem_of, elem_of_imports_of in Hlast as [_ <-].
  apply normalize_text_fixed.
Qed.

Lemma imported_record_key_witness :
  bl_record_id (default (fresh []) (import_rows ∅ [row_watchmen] !! U "003"))
  = U "003" ∧ trimmed (U "003").
Proof.
  destruct (imported_record_key [row_watchmen] (U "003")
              (default (fresh []) (import_rows ∅ [row_watchmen] !! U "003")))
    as [H1 H2]; [vm_compute; reflexivity|].
  split; [exact H1 | exact H2].
Defined.

(** X6: after an import into an empty table, an identifier has a record
    exactly when it is not empty and some imported row carries it. *)
Theorem imported_identifiers (rows : list Row) (k : str) :
  is_Some (import_rows ∅ rows !! k)
  ↔ k ≠ [] ∧ ∃ row, row ∈ rows ∧ rec_bl_record_id (parse_row_to_record row) = k.
Proof.
  pose proof (import_rows_snapshot rows k) as H.
  destruct (import_rows ∅ rows !! k) as [r|]; split.
  - intros _. destruct H as (Hne & _ & (row & Hlast & _) & _). split; [done|].
    exists row. by apply elem_of_imports_of, last_Some_elem_of.
  - eauto.
  - by intros [? ?].
  - intros (Hne & row & Hin & Hid). destruct H as [H|H]; [done|].
    assert (Hrow : row ∈ imports_of k rows) by by apply elem_of_imports_of.
    rewrite H in Hrow. by apply elem_of_nil in Hrow.
Qed.

(** X7: after an import into an empty table, a multi-valued field of a
    record holds exactly the values that the rows carrying the record's
    identifier have in that field: no import's values are lost, none is
    invented. *)
Theorem imported_values_are_the_union (rows : list Row) (k : str) (r : Comic) :
  import_rows ∅ rows !! k = Some r →
  ∀ f x, x ∈ stored f r
         ↔ ∃ row, row ∈ rows ∧ rec_bl_record_id (parse_row_to_record row) = k
                  ∧ x ∈ parsed_of f (parse_row_to_record row).
Proof.
  intros Hk f x. pose proof (import_rows_snapshot rows k) as H. rewrite Hk in H.
  destruct H as (_ & _ & _ & _ & H). rewrite H. split.
  - intros (row & [? ?]%elem_of_imports_of & ?). eauto.
  - intros (row & ? & ? & ?). exists row. by rewrite elem_of_imports_of.
Qed.

Lemma imported_values_are_the_union_witness :
  U "Dave Gibbons"
  ∈ authors (default (fresh [])
               (import_rows ∅ [row_watchmen; row_watchmen_again] !! U "003")).
Proof.
  apply (imported_values_are_the_union [row_watchmen; row_watchmen_again] (U "003")
           _ ltac:(vm_compute; reflexivity) Authors).
  exists row_watchmen_again. split; [right; left|]. split; [reflexivity|].
  vm_compute. left.
Defined.

(** X8: after an import into an empty table, the identifiers of a record
    are those parsed from the last row that carried its identifier (an
    empty cell there brings the sentinel back), and its title is the last
    title that was not empty among those rows. *)
Theorem last_import_wins (rows : list Row) (k : str) (r : Comic) :
  import_rows ∅ rows !! k = Some r →
  (∃ row, last (imports_of k rows) = Some row
          ∧ isbn r = parse_isbn (isbn_cell row))
  ∧ title r = last_title (imports_of k rows).
Proof.
  intros Hk. pose proof (import_rows_snapshot rows k) as H. rewrite Hk in H.
  by destruct H as (_ & _ & ? & ? & _).
Qed.

Lemma last_import_wins_witness :
  isbn (default (fresh [])
          (import_rows ∅ [row_watchmen; row_watchmen_again] !! U "003"))
  = [U "missing"]
  ∧ title (default (fresh [])
             (import_rows ∅ [row_watchmen; row_watchmen_again] !! U "003"))
    = U "Watchmen".
Proof.
  destruct (last_import_wins [row_watchmen; row_watchmen_again] (U "003")
              (default (fresh [])
                 (import_rows ∅ [row_watchmen; row_watchmen_again] !! U "003")))
    as [(row & Hrow & Hisbn) Htitle]; [vm_compute; reflexivity|].
  split; [|rewrite Htitle; vm_compute; reflexivity].
  rewrite Hisbn. vm_compute in Hrow. injection Hrow as <-. vm_compute. reflexivity.
Defined.

Section MethodFacts.

Lemma parse_isbn_shape (cell : option str) :
  parse_isbn cell ≠ [] ∧ Forall (λ x, x ≠ []) (parse_isbn cell).
Proof.
  destruct cell as [v|]; [|split; [done | by constructor]].
  rewrite parse_isbn_loop.
  assert (Hparts : Forall (λ x : str, x ≠ []) (isbn_parts v)).
  { unfold isbn_parts. apply Forall_forall. by intros x [Hx _]%list_elem_of_filter. }
  destruct (isbn_parts v); [split; [done | by constructor] | done].
Qed.

Lemma multi_value_clean (v : json_value) (l : list str) :
  parsed_value v → multi_value v = Some l →
  Forall (λ x, x ≠ [] ∧ ¬ whitespace_only x) l.
Proof.
  destruct v as [s|l']; cbn [parsed_value multi_value].
  - intros [Hs Hsemi].
    destruct (contains_char SEMICOLON s) eqn:Hc.
    { exfalso. apply Hsemi. unfold contains_char in Hc.
      apply existsb_exists in Hc as (c & Hin & ->%N.eqb_eq).
      by apply list_elem_of_In. }
    destruct (truthy s) eqn:Ht; [|done]. intros [= <-].
    constructor; [|constructor]. split; [by intros ->|].
    rewrite <- Hs. apply strip_not_blank. rewrite Hs. by intros ->.
  - by intros H [= <-].
Qed.

End MethodFacts.

(** X9: [get_isbn] never returns the empty list, whatever the record; and
    on a record of a table built by importing rows into an empty one it
    returns the stored identifiers unchanged: the parser has put the
    sentinel already. *)
Theorem get_isbn_of_imported (c : Comic) (rows : list Row) (k : str) (r : Comic) :
  get_isbn c ≠ []
  ∧ (import_rows ∅ rows !! k = Some r → get_isbn r = isbn r).
Proof.
  split.
  { unfold get_isbn. case_bool_decide as Hnil; [done|].
    case_bool_decide; [done|]. exact Hnil. }
  intros Hk. pose proof (import_rows_snapshot rows k) as H. rewrite Hk in H.
  destruct H as (_ & _ & (row & _ & Hisbn) & _).
  destruct (parse_isbn_shape (isbn_cell row)) as [Hne Hall]. rewrite <- Hisbn in *.
  unfold get_isbn. rewrite bool_decide_eq_false_2 by done.
  rewrite bool_decide_eq_false_2; [done|]. intros Heq. rewrite Heq in Hall.
  by inversion Hall.
Qed.

Lemma get_isbn_of_imported_witness :
  get_isbn (comic_titled (U "1") (U "a")) ≠ []
  ∧ get_isbn (default (fresh []) (import_rows ∅ [row_watchmen] !! U "003"))
    = [U "978-1401245252"].
Proof.
  destruct (get_isbn_of_imported (comic_titled (U "1") (U "a")) [row_watchmen]
              (U "003")
              (default (fresh []) (import_rows ∅ [row_watchmen] !! U "003")))
    as [H1 H2].
  split; [exact H1|]. rewrite H2; [|vm_compute; reflexivity].
  vm_compute. reflexivity.
Defined.

(** X10: on a record of a table built by importing rows into an empty one,
    every list that [get_multi_value_fields] returns holds only strings that
    are neither empty nor made of white space. *)
Theorem multi_value_fields_of_imported (rows : list Row) (k : str) (r : Comic)
    (key : str) (l : list str) :
  import_rows ∅ rows !! k = Some r →
  get_multi_value_fields r !! key = Some l →
  Forall (λ x, x ≠ [] ∧ ¬ whitespace_only x) l.
Proof.
  intros Hk. unfold get_multi_value_fields. rewrite lookup_omap.
  destruct (other_fields r !! key) as [v|] eqn:Hv; [|done]. cbn.
  apply multi_value_clean. by eapply import_rows_other_fields.
Qed.

Lemma multi_value_fields_of_imported_witness :
  Forall (λ x : str, x ≠ [] ∧ ¬ whitespace_only x) [U "First"; U "Second"].
Proof.
  apply (multi_value_fields_of_imported [row_editions] (U "A1")
           (default (fresh []) (import_rows ∅ [row_editions] !! U "A1"))
           (U "topics")); vm_compute; reflexivity.
Defined.

(** ** The filters and the search, further *)

Section SelectionFacts.
Implicit Types (qs : QuerySet) (F G : QuerySet → QuerySet).

Lemma List_filter_true {A} (l : list A) : List.filter (λ _, true) l = l.
Proof. induction l as [|x l IH]; [done|]. cbn. by rewrite IH. Qed.

Lemma List_filter_sublist {A} (f : A → bool) (l : list A) :
  List.filter f l `sublist_of` l.
Proof.
  induction l as [|x l IH]; [done|]. cbn [List.filter].
  destruct (f x); [by apply sublist_skip | by apply sublist_cons].
Qed.

Lemma List_filter_comm {A} (f g : A → bool) (l : list A) :
  List.filter f (List.filter g l) = List.filter g (List.filter f l).
Proof.
  induction l as [|x l IH]; [done|]. cbn [List.filter].
  destruct (f x) eqn:Hf, (g x) eqn:Hg; cbn [List.filter];
    rewrite ?Hf, ?Hg, ?IH; done.
Qed.

Lemma List_filter_twice {A} (f : A → bool) (l : list A) :
  List.filter f (List.filter f l) = List.filter f l.
Proof.
  induction l as [|x l IH]; [done|]. cbn [List.filter].
  destruct (f x) eqn:Hf; cbn [List.filter]; rewrite ?Hf, ?IH; done.
Qed.

Lemma string_filter_selection test v : selection (λ qs, string_filter test qs v).
Proof.
  unfold selection, string_filter. destruct (blank v).
  - exists (λ _, true). intros qs. by rewrite List_filter_true.
  - by eexists.
Qed.

Lemma LanguageFilter_selection icl lv : selection (λ qs, LanguageFilter icl qs lv).
Proof.
  assert (Hall : selection (λ qs : QuerySet, qs)).
  { exists (λ _, true). intros qs. by rewrite List_filter_true. }
  unfold LanguageFilter. destruct lv as [v|]; [|done].
  destruct (negb (lang_truthy v)); [done|].
  destruct (language_tokens v); [done | by eexists].
Qed.

Lemma library_filter_selection icl ict icd F :
  library_filter icl ict icd F → selection F.
Proof.
  destruct 1; try apply string_filter_selection. apply LanguageFilter_selection.
Qed.

Lemma search_params_selections icl ict icd repr a :
  Forall (λ p, selection (param_filter p)) (search_params icl ict icd repr a).
Proof.
  unfold search_params.
  repeat (constructor; [first [apply string_filter_selection
                              | apply LanguageFilter_selection]|]).
  constructor.
Qed.

Lemma Forall_filter_weaken {A} (P : A → Prop) (Q : A → Prop)
    `{!∀ x, Decision (Q x)} (l : list A) :
  Forall P l → Forall P (filter Q l).
Proof.
  intros Hl. apply Forall_forall. intros x [_ Hx]%list_elem_of_filter.
  revert x Hx. by apply Forall_forall.
Qed.

Lemma foldl_selections_nil (l : list Param) :
  Forall (λ p, selection (param_filter p)) l →
  foldl (λ q p, param_filter p q) [] l = [].
Proof.
  induction 1 as [|p l [keep Hk] _ IH]; [done|]. cbn [foldl]. by rewrite Hk.
Qed.

Lemma foldl_selections_sublist (l : list Param) qs :
  Forall (λ p, selection (param_filter p)) l →
  foldl (λ q p, param_filter p q) qs l `sublist_of` qs.
Proof.
  intros Hl. revert qs. induction Hl as [|p l [keep Hk] _ IH]; intros qs; [done|].
  cbn [foldl]. etrans; [apply IH|]. rewrite Hk. apply List_filter_sublist.
Qed.

(** With filters that select, the loop ends on the rows that pass every
    filter of a present parameter, whether it has left early or not. *)
Lemma apply_filters_selects ps qs :
  Forall (λ p, selection (param_filter p)) ps →
  (apply_filters ps qs).1
  = foldl (λ q p, param_filter p q) qs (filter (λ p, param_present p = true) ps).
Proof.
  intros Hps. revert qs. induction Hps as [|p ps Hp Hps IH]; intros qs; [done|].
  cbn [apply_filters]. rewrite filter_cons.
  destruct (param_present p) eqn:Hpres.
  - rewrite decide_True by done. cbn [foldl].
    destruct (param_filter p qs) as [|c qs'] eqn:Hq; [|apply IH].
    cbn [fst]. rewrite foldl_selections_nil; [done|].
    by apply Forall_filter_weaken.
  - rewrite decide_False by done. apply IH.
Qed.

End SelectionFacts.

Section TokenFacts.

Lemma split_app_sep sep (p rest : str) :
  sep ∉ p → split sep (p ++ sep :: rest) = p :: split sep rest.
Proof.
  induction p as [|c p IH]; intros Hp; cbn [app split].
  - by rewrite N.eqb_refl.
  - destruct (N.eqb_spec c sep) as [->|Hne]; [exfalso; apply Hp; left|].
    rewrite IH; [done|]. intros Hin. apply Hp. by right.
Qed.

Lemma split_join sep (l : list str) :
  l ≠ [] → Forall (λ p, sep ∉ p) l → split sep (join [sep] l) = l.
Proof.
  intros Hne Hl. induction Hl as [|p l Hp Hl IH]; [done|].
  destruct l as [|q l].
  - by apply split_no_sep.
  - change (join [sep] (p :: q :: l)) with (p ++ sep :: join [sep] (q :: l)).
    rewrite split_app_sep by done. by rewrite IH.
Qed.

Lemma LanguageFilter_tokens icl (qs : QuerySet) (v : lang_value) :
  LanguageFilter icl qs (Some v)
  = match language_tokens v with
    | [] => qs
    | langs => List.filter (λ c, existsb (icl (languages c)) langs) qs
    end.
Proof.
  unfold LanguageFilter. destruct (negb (lang_truthy v)) eqn:Hv; [|done].
  destruct v as [[|c s]|[|x l]]; done.
Qed.

Lemma strip_nil : strip [] = [].
Proof. done. Qed.

Lemma language_tokens_list (l : list str) :
  language_tokens (LList l) = strip <$> filter (λ lang, strip lang ≠ []) l.
Proof.
  cbn [language_tokens]. f_equal. apply list_filter_iff. intros x.
  split; [by intros [_ ?] | intros H; split; [|done]]. by intros ->.
Qed.

Lemma trimmed_list_kept (l : list str) :
  Forall trimmed l →
  strip <$> filter (λ item, item ≠ [] ∧ strip item ≠ []) l = l.
Proof.
  induction 1 as [|x l [Hne Hx] _ IH]; [done|].
  rewrite filter_cons_True by (by rewrite Hx). rewrite fmap_cons.
  f_equal; [exact Hx | exact IH].
Qed.

Lemma trimmed_list_fixed (l : list str) :
  strip <$> filter (λ item, item ≠ [] ∧ strip item ≠ [])
              (strip <$> filter (λ item, item ≠ [] ∧ strip item ≠ []) l)
  = strip <$> filter (λ item, item ≠ [] ∧ strip item ≠ []) l.
Proof.
  apply trimmed_list_kept, Forall_fmap, Forall_forall.
  intros x [[_ Hx] _]%list_elem_of_filter. by apply strip_trimmed.
Qed.

Lemma clean_str_fixed (v : option str) : clean_str (clean_str v) = clean_str v.
Proof.
  destruct v as [s|]; [|done]. cbn [clean_str].
  destruct (truthy (strip s)) eqn:Hs; [|done]. cbn [clean_str].
  by rewrite strip_strip, Hs.
Qed.

Lemma clean_lang_fixed (v : option lang_value) :
  clean_lang (clean_lang v) = clean_lang v.
Proof.
  destruct v as [[s|l]|]; [| |done]; cbn [clean_lang].
  - destruct (truthy (strip s)) eqn:Hs; [|done]. cbn [clean_lang].
    by rewrite strip_strip, Hs.
  - pose proof (trimmed_list_fixed l) as H.
    destruct (strip <$> filter _ l) as [|x l'] eqn:Hl; [done|].
    cbn [clean_lang]. by rewrite H.
Qed.

Lemma clean_str_blank (v : option str) : blank_str v → clean_str v = None.
Proof.
  destruct v as [s|]; [|done]. cbn [blank_str clean_str].
  intros Hs%strip_nil_iff. by rewrite Hs.
Qed.

Lemma clean_lang_blank (v : option lang_value) : blank_lang v → clean_lang v = None.
Proof.
  destruct v as [[s|l]|]; [| |done]; cbn [blank_lang clean_lang].
  - intros Hs%strip_nil_iff. by rewrite Hs.
  - intros Hl. rewrite filter_none; [done|]. eapply Forall_impl; [exact Hl|].
    intros x Hx%strip_nil_iff [_ ?]. done.
Qed.

End TokenFacts.

(** X11: each filter of the library returns a part of the rows it is given,
    in their order; applied twice it does what it does once; and any two of
    them give the same rows in either order. *)
Theorem filters_narrow_and_commute
    (icontains_list : list str → str → bool) (icontains_text : str → str → bool)
    (icontains_dict : gmap str json_value → str → bool)
    (F G : QuerySet → QuerySet) (qs : QuerySet) :
  library_filter icontains_list icontains_text icontains_dict F →
  library_filter icontains_list icontains_text icontains_dict G →
  F qs `sublist_of` qs ∧ F (F qs) = F qs ∧ F (G qs) = G (F qs).
Proof.
  intros [f Hf]%library_filter_selection [g Hg]%library_filter_selection.
  repeat (rewrite Hf || rewrite Hg).
  split; [apply List_filter_sublist|].
  split; [apply List_filter_twice | apply List_filter_comm].
Qed.

Lemma filters_narrow_and_commute_witness :
  GenreFilter has_element
    (AuthorFilter has_element (map_to_list two_titles).*2 (Some (U "A")))
    (Some (U "Horror"))
  = AuthorFilter has_element
      (GenreFilter has_element (map_to_list two_titles).*2 (Some (U "Horror")))
      (Some (U "A")).
Proof.
  apply (filters_narrow_and_commute has_element same_text no_entry
           (λ qs, GenreFilter has_element qs (Some (U "Horror")))
           (λ qs, AuthorFilter has_element qs (Some (U "A")))
           (map_to_list two_titles).*2); constructor.
Defined.

(** X12: leaving the loop early is an optimisation only: the rows that
    [search] sorts and cuts are those of the table that pass the filter of
    every present parameter. *)
Theorem search_applies_every_present_filter
    (icontains_list : list str → str → bool) (icontains_text : str → str → bool)
    (icontains_dict : gmap str json_value → str → bool)
    (title_le : relation str) `{!RelDecision title_le}
    (repr_list : list str → str)
    (args : SearchArgs) (db : Comics) (log : list SearchLog) :
  (search icontains_list icontains_text icontains_dict title_le repr_list
     args db log).1
  = take MAX_RESULTS
      (order_by_title title_le
         (foldl (λ q p, param_filter p q) (map_to_list db).*2
            (filter (λ p, param_present p = true)
               (search_params icontains_list icontains_text icontains_dict
                  repr_list (_clean_search_params args))))).
Proof.
  unfold search. cbn [fst].
  by rewrite apply_filters_selects by apply search_params_selections.
Qed.

(** X13: the language filter gives the same rows for a list of languages
    and for the same languages written in one string with commas between
    them, as long as no language holds a comma itself. *)
Theorem LanguageFilter_string_or_list
    (icontains_list : list str → str → bool) (qs : QuerySet) (l : list str) :
  Forall (λ lang, COMMA ∉ lang) l →
  LanguageFilter icontains_list qs (Some (LStr (join [COMMA] l)))
  = LanguageFilter icontains_list qs (Some (LList l)).
Proof.
  intros Hl. rewrite !LanguageFilter_tokens, language_tokens_list.
  destruct l as [|x l]; [done|]. cbn [language_tokens].
  by rewrite split_join.
Qed.

Lemma LanguageFilter_string_or_list_witness :
  LanguageFilter has_element [comic_titled (U "1") (U "a")]
    (Some (LStr (U "English, French")))
  = LanguageFilter has_element [comic_titled (U "1") (U "a")]
      (Some (LList [U "English"; U " French"])).
Proof.
  apply (LanguageFilter_string_or_list has_element
           [comic_titled (U "1") (U "a")] [U "English"; U " French"]).
  repeat constructor; by vm_compute; intros H; 
    repeat (apply elem_of_cons in H as [H|H]; [discriminate|]);
    apply elem_of_nil in H.
Defined.

(** X14: cleaning the parameters twice is cleaning them once, so a caller
    that has cleaned them gets the same search. *)
Theorem clean_search_params_idempotent
    (icontains_list : list str → str → bool) (icontains_text : str → str → bool)
    (icontains_dict : gmap str json_value → str → bool)
    (title_le : relation str) `{!RelDecision title_le}
    (repr_list : list str → str)
    (args : SearchArgs) (db : Comics) (log : list SearchLog) :
  _clean_search_params (_clean_search_params args) = _clean_search_params args
  ∧ search icontains_list icontains_text icontains_dict title_le repr_list
      (_clean_search_params args) db log
    = search icontains_list icontains_text icontains_dict title_le repr_list
        args db log.
Proof.
  assert (H : _clean_search_params (_clean_search_params args)
              = _clean_search_params args).
  { unfold _clean_search_params.
    cbn [arg_title_query arg_genre arg_author arg_year arg_edition arg_languages
         arg_name_type].
    by rewrite !clean_str_fixed, clean_lang_fixed. }
  split; [done|]. unfold search. by rewrite H.
Qed.

(** X15: [search] returns rows of the table, none more often than the
    table has it. *)
Theorem search_returns_rows_of_the_table
    (icontains_list : list str → str → bool) (icontains_text : str → str → bool)
    (icontains_dict : gmap str json_value → str → bool)
    (title_le : relation str) `{!RelDecision title_le}
    (repr_list : list str → str)
    (args : SearchArgs) (db : Comics) (log : list SearchLog) :
  (search icontains_list icontains_text icontains_dict title_le repr_list
     args db log).1 ⊆+ (map_to_list db).*2.
Proof.
  unfold search. cbn [fst].
  rewrite apply_filters_selects by apply search_params_selections.
  etrans; [apply sublist_submseteq, sublist_take|].
  unfold order_by_title. rewrite merge_sort_Permutation.
  apply sublist_submseteq, foldl_selections_sublist, Forall_filter_weaken.
  apply search_params_selections.
Qed.

(** X16: a search whose parameters are all absent or blank applies no
    filter: it returns the first 10,000 rows of the whole table in the order
    of the title column and logs the text [empty_search]. *)
Theorem blank_search_returns_all
    (icontains_list : list str → str → bool) (icontains_text : str → str → bool)
    (icontains_dict : gmap str json_value → str → bool)
    (title_le : relation str) `{!RelDecision title_le}
    (repr_list : list str → str)
    (args : SearchArgs) (db : Comics) (log : list SearchLog) :
  blank_args args →
  let all := take MAX_RESULTS (order_by_title title_le (map_to_list db).*2) in
  search icontains_list icontains_text icontains_dict title_le repr_list
    args db log
  = (all, log ++ [ {| query_text := U "empty_search";
                      result_ids := bl_record_id <$> all;
                      num_results := length all |} ]).
Proof.
  intros (H1 & H2 & H3 & H4 & H5 & H6 & H7) all. subst all.
  unfold search, _clean_search_params.
  by rewrite !clean_str_blank, clean_lang_blank.
Qed.

Lemma blank_search_returns_all_witness :
  title <$> (search has_element same_text no_entry codepoint_le first_or_empty
               no_args two_titles []).1
  = title <$> take MAX_RESULTS (order_by_title codepoint_le (map_to_list two_titles).*2).
Proof.
  rewrite (blank_search_returns_all has_element same_text no_entry codepoint_le
             first_or_empty no_args two_titles []); [reflexivity|].
  vm_compute. tauto.
Defined.

(** ** The reports *)

Section CounterFacts.
Implicit Types (counts items : list (str * nat)) (l : list str) (k : str).

Lemma foldl_mjoin {A B C} (f : A → B → A) (g : C → list B) (a : A) (es : list C) :
  foldl (λ acc e, foldl f acc (g e)) a es = foldl f a (mjoin (g <$> es)).
Proof.
  revert a. induction es as [|e es IH]; intros a; [done|].
  cbn [foldl fmap list_fmap mjoin list_join]. by rewrite foldl_app, IH.
Qed.

Lemma foldl_over_fmap {A B C} (f : A → B → A) (g : C → B) (a : A) (es : list C) :
  foldl (λ acc e, f acc (g e)) a es = foldl f a (g <$> es).
Proof. revert a. induction es as [|e es IH]; intros a; [done|]. cbn. apply IH. Qed.

Lemma count_results_Counter (log : list SearchLog) :
  count_results log = Counter (all_result_ids log).
Proof. unfold count_results, Counter, all_result_ids. apply foldl_mjoin. Qed.

Lemma tally_absent k counts : k ∉ counts.*1 → tally k counts = 0%nat.
Proof.
  intros Hk. unfold tally. rewrite filter_none; [done|].
  apply Forall_forall. intros [k' n] Hin Heq. cbn in Heq. subst k'.
  apply Hk. apply list_elem_of_fmap. by exists (k, n).
Qed.

Lemma tally_lookup k n counts :
  NoDup counts.*1 → (k, n) ∈ counts → tally k counts = n.
Proof.
  induction counts as [|[k' n'] counts IH]; [by intros _ ?%elem_of_nil|].
  rewrite fmap_cons. cbn [fst]. intros [Hk' Hnd]%NoDup_cons Hin.
  unfold tally in *. rewrite filter_cons. cbn [fst].
  apply elem_of_cons in Hin as [[= -> ->]|Hin].
  - rewrite decide_True by done. rewrite fmap_cons. cbn [sum_list snd].
    fold (tally k' counts). rewrite tally_absent by done. unfold id. lia.
  - rewrite decide_False; [by apply IH|]. intros ->. apply Hk'.
    apply list_elem_of_fmap. by exists (k, n).
Qed.

Lemma Counter_acc l counts :
  NoDup counts.*1 →
  NoDup (foldl (λ cs rid, bump rid cs) counts l).*1
  ∧ ∀ k, (k ∈ (foldl (λ cs rid, bump rid cs) counts l).*1 ↔ k ∈ counts.*1 ∨ k ∈ l)
         ∧ tally k (foldl (λ cs rid, bump rid cs) counts l)
           = (tally k counts + occurrences k l)%nat.
Proof.
  revert counts. induction l as [|x l IH]; intros counts Hnd; cbn [foldl].
  - split; [done|]. intros k. split; [|unfold occurrences; cbn; lia].
    rewrite elem_of_nil. tauto.
  - destruct (bump_keys x counts Hnd) as [Hnd' Hkeys].
    destruct (IH _ Hnd') as [H1 H2]. split; [done|]. intros k.
    destruct (H2 k) as [H3 H4]. split.
    + rewrite H3, Hkeys, elem_of_cons. tauto.
    + rewrite H4, tally_bump. unfold occurrences. rewrite filter_cons.
      case_decide; cbn [length]; lia.
Qed.

Lemma Counter_elem l k n :
  (k, n) ∈ Counter l ↔ k ∈ l ∧ n = occurrences k l.
Proof.
  destruct (Counter_acc l [] (NoDup_nil_2 (A := str))) as [Hnd H].
  destruct (H k) as [Hkeys Htally]. fold (Counter l) in *.
  assert (Hkeys' : k ∈ (Counter l).*1 ↔ k ∈ l).
  { rewrite Hkeys. cbn. rewrite elem_of_nil. tauto. }
  assert (Htally' : tally k (Counter l) = occurrences k l) by by rewrite Htally.
  clear H Hkeys Htally. split.
  - intros Hin. split.
    + apply Hkeys'. apply list_elem_of_fmap. by exists (k, n).
    + by rewrite <- (tally_lookup k n (Counter l)).
  - intros [Hin ->]. apply Hkeys' in Hin.
    apply list_elem_of_fmap in Hin as [[k' n'] [Hk' Hin']]. cbn in Hk'. subst k'.
    by rewrite <- Htally', (tally_lookup k n' (Counter l)).
Qed.

Lemma Counter_NoDup l : NoDup (Counter l).*1.
Proof. by destruct (Counter_acc l [] (NoDup_nil_2 (A := str))). Qed.

#[local] Instance count_ge_transitive : Transitive count_ge.
Proof. intros a b c. unfold count_ge. lia. Qed.

Lemma slice_to_take {A} (limit : Z) (xs : list A) :
  ∃ m, slice_to limit xs = take m xs ∧ ((0 ≤ limit)%Z → m = Z.to_nat limit).
Proof.
  unfold slice_to. destruct (Z.leb_spec 0 limit); eexists; split; try done. lia.
Qed.

(** What [sorted(...)[:limit]] of a counter is. *)
Lemma top_of_Counter (limit : Z) l :
  most_frequent l (slice_to limit (sorted_desc (Counter l)))
  ∧ ((0 ≤ limit)%Z →
     (length (slice_to limit (sorted_desc (Counter l))) ≤ Z.to_nat limit)%nat).
Proof.
  destruct (slice_to_take limit (sorted_desc (Counter l))) as [m [-> Hm]].
  destruct (sorted_desc_sorted (Counter l)) as [Hperm Hsorted].
  fold count_ge in Hsorted.
  assert (Hin : ∀ k n, (k, n) ∈ take m (sorted_desc (Counter l)) →
                       k ∈ l ∧ n = occurrences k l).
  { intros k n Hk. apply Counter_elem. rewrite <- Hperm.
    eapply elem_of_sublist; [exact Hk | apply sublist_take]. }
  split; [|intros H; rewrite length_take, (Hm H); lia].
  split; [by apply Sorted_take|]. split.
  { rewrite fmap_take. eapply sublist_NoDup; [|apply sublist_take].
    rewrite Hperm. apply Counter_NoDup. }
  split; [done|]. intros k n k' Hk Hk' Hout.
  assert (Hc : (k', occurrences k' l) ∈ sorted_desc (Counter l)).
  { rewrite Hperm. by apply Counter_elem. }
  rewrite <- (take_drop m (sorted_desc (Counter l))) in Hc, Hsorted.
  apply elem_of_app in Hc as [Hc|Hc].
  { exfalso. apply Hout. apply list_elem_of_fmap. by eexists (_, _). }
  apply Sorted_StronglySorted in Hsorted; [|apply _].
  by apply (StronglySorted_app_1_elem_of _ _ _ _ _ Hsorted Hk Hc).
Qed.

End CounterFacts.

(** X17: for a limit that is not negative, [top_results] returns at most
    [limit] pairs, one for an identifier of the log, sorted by count with the
    greater first; each pair holds the row found under the identifier, or
    [None], and the number of occurrences of the identifier in all the
    lists [result_ids]; no identifier left out occurs more often than one
    that is in. *)
Theorem top_results_counts (limit : Z) (log : list SearchLog) (db : Comics) :
  (0 ≤ limit)%Z →
  ∃ items,
    top_results limit log db = (λ item, (db !! item.1, item.2)) <$> items
    ∧ (length items ≤ Z.to_nat limit)%nat
    ∧ most_frequent (all_result_ids log) items.
Proof.
  intros Hlimit. unfold top_results. rewrite count_results_Counter.
  eexists. split; [done|].
  destruct (top_of_Counter limit (all_result_ids log)) as [H1 H2]. auto.
Qed.

Lemma top_results_counts_witness :
  ∃ items,
    top_results 1 [ {| query_text := U "q"; result_ids := [U "1"; U "2"];
                       num_results := 2 |};
                    {| query_text := U "q"; result_ids := [U "2"];
                       num_results := 1 |} ] two_titles
    = (λ item, (two_titles !! item.1, item.2)) <$> items
    ∧ (length items ≤ Z.to_nat 1)%nat
    ∧ most_frequent [U "1"; U "2"; U "2"] items.
Proof. apply (top_results_counts 1). lia. Defined.

(** X18: for a limit that is not negative, [top_queries] returns at most
    [limit] pairs, one for a query text of the log, sorted by count with the
    greater first; each count is the number of log entries with that text,
    and no text left out has more entries than one that is in. *)
Theorem top_queries_counts (limit : Z) (log : list SearchLog) :
  (0 ≤ limit)%Z →
  (length (top_queries limit log) ≤ Z.to_nat limit)%nat
  ∧ most_frequent (query_text <$> log) (top_queries limit log).
Proof.
  intros Hlimit. unfold top_queries.
  rewrite (foldl_over_fmap (λ agg q, bump q agg) query_text).
  destruct (top_of_Counter limit (query_text <$> log)) as [H1 H2]. auto.
Qed.

Lemma top_queries_counts_witness :
  (length (top_queries 10 [ {| query_text := U "genre=Horror"; result_ids := [];
                               num_results := 0 |} ]) ≤ Z.to_nat 10)%nat
  ∧ most_frequent [U "genre=Horror"]
      (top_queries 10 [ {| query_text := U "genre=Horror"; result_ids := [];
                           num_results := 0 |} ]).
Proof. apply (top_queries_counts 10). lia. Defined.

(** X19: [names_in_more_than_n_results] returns exactly the pairs of a title
    and a count for the identifiers of the log that have a row in the table
    and occur more than [n] times in all the lists [result_ids]; an
    identifier without a row is left out. *)
Theorem names_in_more_than_n_results_spec (n : nat) (log : list SearchLog)
    (db : Comics) (t : str) (cnt : nat) :
  (t, cnt) ∈ names_in_more_than_n_results n log db
  ↔ ∃ rid c, db !! rid = Some c ∧ title c = t
             ∧ rid ∈ all_result_ids log
             ∧ cnt = occurrences rid (all_result_ids log) ∧ (n < cnt)%nat.
Proof.
  unfold names_in_more_than_n_results. rewrite list_elem_of_omap.
  rewrite count_results_Counter. split.
  - intros ([rid m] & [Hin ->]%Counter_elem & Hsome). cbn [fst snd] in Hsome.
    destruct (Nat.ltb_spec n (occurrences rid (all_result_ids log))); [|done].
    destruct (db !! rid) as [c|] eqn:Hc; [|done]. injection Hsome as <- <-.
    by exists rid, c.
  - intros (rid & c & Hc & <- & Hin & -> & Hlt).
    exists (rid, occurrences rid (all_result_ids log)).
    split; [by apply Counter_elem|]. cbn [fst snd]. rewrite Hc.
    by destruct (Nat.ltb_spec n (occurrences rid (all_result_ids log))); [|lia].
Qed.

(** ** Sorting *)

Section SortFacts.
Context {A : Type}.
Implicit Types (key : A → str) (l acc : list A) (reverse : bool).

Lemma str_ltb_leb (a b : str) : str_ltb a b = negb (codepoint_leb b a).
Proof.
  revert b. induction a as [|x a IH]; intros [|y b];
    cbn [str_ltb codepoint_leb]; try done.
  rewrite IH.
  destruct (N.ltb_spec x y), (N.ltb_spec y x), (N.eqb_spec x y),
    (N.eqb_spec y x); cbn; try done; exfalso; lia.
Qed.

Lemma codepoint_leb_trans (a b c : str) :
  codepoint_leb a b = true → codepoint_leb b c = true → codepoint_leb a c = true.
Proof.
  revert b c. induction a as [|x a IH]; intros [|y b] [|z c];
    cbn [codepoint_leb]; try done.
  destruct (N.ltb_spec x y), (N.ltb_spec y z), (N.ltb_spec x z),
    (N.eqb_spec x y), (N.eqb_spec y z), (N.eqb_spec x z); cbn; try done;
    try (exfalso; lia).
  apply IH.
Qed.

#[local] Instance sorted_by_transitive key reverse :
  Transitive (sorted_by key reverse).
Proof.
  intros a b c. unfold sorted_by, codepoint_le. destruct reverse; intros H1 H2.
  - by apply (codepoint_leb_trans _ (key b)).
  - by apply (codepoint_leb_trans _ (key b)).
Qed.

Lemma key_before_true key reverse x y :
  key_before key reverse x y = true → sorted_by key reverse x y.
Proof.
  unfold key_before, sorted_by, codepoint_le.
  destruct reverse; rewrite str_ltb_leb; intros H%negb_true_iff.
  - by destruct (codepoint_le_total (key x) (key y)); [congruence|].
  - by destruct (codepoint_le_total (key x) (key y)); [|congruence].
Qed.

Lemma key_before_false key reverse x y :
  key_before key reverse x y = false → sorted_by key reverse y x.
Proof.
  unfold key_before, sorted_by, codepoint_le.
  by destruct reverse; rewrite str_ltb_leb; intros H%negb_false_iff.
Qed.

Lemma key_before_strict key reverse x y :
  sorted_by key reverse y x → key_before key reverse x y = false.
Proof.
  unfold key_before, sorted_by, codepoint_le.
  by destruct reverse; rewrite str_ltb_leb; intros ->.
Qed.

Lemma insert_by_Permutation (before : A → A → bool) x l :
  insert_by before x l ≡ₚ x :: l.
Proof.
  induction l as [|y l IH]; cbn [insert_by]; [done|].
  destruct (before x y); [done|]. rewrite IH. apply Permutation_swap.
Qed.

Lemma insert_by_Sorted key reverse x l :
  Sorted (sorted_by key reverse) l →
  Sorted (sorted_by key reverse) (insert_by (key_before key reverse) x l).
Proof.
  induction 1 as [|y l Hs IH Hd]; cbn [insert_by].
  - by repeat constructor.
  - destruct (key_before key reverse x y) eqn:Hxy.
    + constructor; [by constructor|]. constructor. by apply key_before_true.
    + apply key_before_false in Hxy. constructor; [done|].
      destruct Hd as [|z l Hz]; cbn [insert_by].
      * by constructor.
      * destruct (key_before key reverse x z); by constructor.
Qed.

Lemma insert_by_last key reverse x l :
  Forall (λ y, sorted_by key reverse y x) l →
  insert_by (key_before key reverse) x l = l ++ [x].
Proof.
  induction 1 as [|y l Hy Hl IH]; cbn [insert_by]; [done|].
  by rewrite (key_before_strict _ _ _ _ Hy), IH.
Qed.

(** [sorted] gives the same items, in the order of the key. *)
Lemma py_sorted_sorted key reverse l :
  py_sorted key reverse l ≡ₚ l
  ∧ Sorted (sorted_by key reverse) (py_sorted key reverse l).
Proof.
  unfold py_sorted.
  assert (H : ∀ acc, Sorted (sorted_by key reverse) acc →
            foldl (λ acc x, insert_by (key_before key reverse) x acc) acc l
              ≡ₚ acc ++ l
            ∧ Sorted (sorted_by key reverse)
                (foldl (λ acc x, insert_by (key_before key reverse) x acc) acc l)).
  { induction l as [|x l IH]; intros acc Hacc; cbn [foldl].
    - by rewrite app_nil_r.
    - destruct (IH (insert_by (key_before key reverse) x acc)) as [H1 H2];
        [by apply insert_by_Sorted|].
      split; [|done]. rewrite H1, insert_by_Permutation.
      apply Permutation_middle. }
  destruct (H []) as [H1 H2]; [constructor | done].
Qed.

(** [sorted] is stable, so it leaves a sorted list as it is. *)
Lemma py_sorted_fixed key reverse l :
  Sorted (sorted_by key reverse) l → py_sorted key reverse l = l.
Proof.
  intros Hl%Sorted_StronglySorted; [|apply _]. unfold py_sorted.
  assert (H : ∀ acc, StronglySorted (sorted_by key reverse) (acc ++ l) →
            foldl (λ acc x, insert_by (key_before key reverse) x acc) acc l
            = acc ++ l).
  { clear Hl. induction l as [|x l IH]; intros acc Hacc; cbn [foldl].
    - by rewrite app_nil_r.
    - rewrite insert_by_last.
      + rewrite IH; rewrite <- app_assoc; [done|]. exact Hacc.
      + apply Forall_forall. intros y Hy.
        apply (StronglySorted_app_1_elem_of _ _ _ _ _ Hacc Hy). by left. }
  by apply (H []).
Qed.

End SortFacts.

(** X20: [sort_results] with the order [asc] or [desc] returns the same rows,
    sorted on the lower-cased title, code point by code point, ascending or
    descending; sorting a second time changes nothing; any other order
    returns the rows as they are. *)
Theorem sort_results_sorts (py_lower : str → str) (results : list Comic) :
  let key := λ c, py_lower (title c) in
  let asc := sort_results py_lower results (U "asc") in
  let desc := sort_results py_lower results (U "desc") in
  asc ≡ₚ results ∧ Sorted (sorted_by key false) asc
  ∧ desc ≡ₚ results ∧ Sorted (sorted_by key true) desc
  ∧ sort_results py_lower asc (U "asc") = asc
  ∧ sort_results py_lower desc (U "desc") = desc
  ∧ ∀ order, order = U "asc" ∨ order = U "desc"
             ∨ sort_results py_lower results order = results.
Proof.
  intros key asc desc.
  assert (Hasc : ∀ l, sort_results py_lower l (U "asc") = py_sorted key false l)
    by done.
  assert (Hdesc : ∀ l, sort_results py_lower l (U "desc") = py_sorted key true l)
    by done.
  subst asc desc. rewrite !Hasc, !Hdesc.
  destruct (py_sorted_sorted key false results) as [H1 H2].
  destruct (py_sorted_sorted key true results) as [H3 H4].
  repeat split; try done; try by apply py_sorted_fixed.
  intros order. unfold sort_results. repeat case_bool_decide; auto.
Qed.

(** X21: the repository's [sort_by_title] returns the same rows, sorted on
    the title as it is stored, code point by code point: descending for the
    order [desc], ascending for any other; sorting a second time changes
    nothing. *)
Theorem sort_by_title_sorts (comics : list Comic) (order : str) :
  let sorted := sort_by_title comics order in
  sorted ≡ₚ comics
  ∧ Sorted (sorted_by title (bool_decide (order = U "desc"))) sorted
  ∧ sort_by_title sorted order = sorted.
Proof.
  intros sorted. subst sorted. unfold sort_by_title.
  destruct (py_sorted_sorted title (bool_decide (order = U "desc")) comics)
    as [H1 H2].
  repeat split; try done. by apply py_sorted_fixed.
Qed.

(** ** Grouping *)

Section GroupFacts.
Implicit Types (g : gmap str (list Comic)) (c : Comic) (a key : str).

Lemma add_to_group_lookup g key c a :
  add_to_group g key c !! a
  = if decide (key = a) then Some (default [] (g !! a) ++ [c]) else g !! a.
Proof.
  unfold add_to_group. destruct (decide (key = a)) as [->|].
  - by rewrite lookup_insert_eq.
  - by rewrite lookup_insert_ne.
Qed.

Lemma add_keys_lookup (keys : list str) g c a :
  (g !! a ≠ Some [] →
   foldl (λ g key, add_to_group g key c) g keys !! a ≠ Some [])
  ∧ default [] (foldl (λ g key, add_to_group g key c) g keys !! a)
    = default [] (g !! a) ++ replicate (occurrences a keys) c.
Proof.
  revert g. induction keys as [|key keys IH]; intros g; cbn [foldl].
  - split; [done|]. by rewrite app_nil_r.
  - destruct (IH (add_to_group g key c)) as [H1 H2]. rewrite H2. clear H2.
    rewrite add_to_group_lookup in *. unfold occurrences. rewrite filter_cons.
    destruct (decide (key = a)) as [->|Hne].
    + split.
      * intros _. apply H1. intros [= H]. by destruct (default [] (g !! a)).
      * cbn. by rewrite <- app_assoc.
    + done.
Qed.

Lemma group_by_field_lookup (unknown : bool) (field : Comic → list str)
    (results : list Comic) a :
  group_by_field unknown field results !! a ≠ Some []
  ∧ default [] (group_by_field unknown field results !! a)
    = bucket (λ c, if unknown then or_unknown (field c) else field c) a results.
Proof.
  pose (keys := λ c, match field c with
                     | [] => if unknown then [U "Unknown"] else []
                     | ks => ks
                     end).
  change (group_by_field unknown field results)
    with (foldl (λ groups c, foldl (λ g key, add_to_group g key c) groups (keys c))
                ∅ results).
  assert (Hkeys : ∀ c, keys c = if unknown then or_unknown (field c) else field c).
  { intros c. unfold keys, or_unknown. by destruct (field c), unknown. }
  assert (H : ∀ g,
    (g !! a ≠ Some [] →
     foldl (λ groups c, foldl (λ g key, add_to_group g key c) groups (keys c))
           g results !! a ≠ Some [])
    ∧ default [] (foldl (λ groups c,
                           foldl (λ g key, add_to_group g key c) groups (keys c))
                        g results !! a)
      = default [] (g !! a)
        ++ bucket (λ c, if unknown then or_unknown (field c) else field c)
                  a results).
  { induction results as [|c results IH]; intros g; cbn [foldl].
    - split; [done|]. unfold bucket. cbn. by rewrite app_nil_r.
    - destruct (IH (foldl (λ g key, add_to_group g key c) g (keys c))) as [H1 H2].
      destruct (add_keys_lookup (keys c) g c a) as [H3 H4].
      split; [auto|]. rewrite H2, H4, <- app_assoc. f_equal.
      unfold bucket. cbn [mbind list_bind]. by rewrite Hkeys. }
  destruct (H ∅) as [H1 H2]. split; [by apply H1|].
  by rewrite H2, lookup_empty.
Qed.

End GroupFacts.

(** X22: the service's [group] by [author] or by [year] has no empty group;
    the group of a name holds the rows that have the name among their
    authors (or years), in the order of the rows and once for each time the
    name is there, a row without authors (or years) counting as one of the
    name [Unknown]; any other criterion gives no group at all. *)
Theorem group_buckets (results : list Comic) (name : str) :
  group results (U "author") !! name ≠ Some []
  ∧ default [] (group results (U "author") !! name)
    = bucket (λ c, or_unknown (authors c)) name results
  ∧ group results (U "year") !! name ≠ Some []
  ∧ default [] (group results (U "year") !! name)
    = bucket (λ c, or_unknown (publication_years c)) name results
  ∧ ∀ by_, by_ = U "author" ∨ by_ = U "year" ∨ group results by_ = ∅.
Proof.
  assert (Ha : group results (U "author") = group_by_field true authors results)
    by done.
  assert (Hy : group results (U "year")
               = group_by_field true publication_years results) by done.
  rewrite Ha, Hy.
  destruct (group_by_field_lookup true authors results name) as [H1 H2].
  destruct (group_by_field_lookup true publication_years results name)
    as [H3 H4].
  repeat split; try done.
  intros by_. unfold group. repeat case_bool_decide; auto.
Qed.

(** X23: the repository's [group_by_author] and [group_by_year] have no empty
    group; the group of a name holds the rows that have the name among their
    authors (or years), in the order of the rows and once for each time the
    name is there; a row without authors (or years) is in no group. *)
Theorem repository_groups (comics : list Comic) (name : str) :
  group_by_author comics !! name ≠ Some []
  ∧ default [] (group_by_author comics !! name) = bucket authors name comics
  ∧ group_by_year comics !! name ≠ Some []
  ∧ default [] (group_by_year comics !! name)
    = bucket publication_years name comics.
Proof.
  destruct (group_by_field_lookup false authors comics name) as [H1 H2].
  destruct (group_by_field_lookup false publication_years comics name)
    as [H3 H4].
  by repeat split.
Qed.

(** ** The log and the views *)

Section LogFacts.
Variable icontains_list : list str → str → bool.
Variable icontains_text : str → str → bool.
Variable icontains_dict : gmap str json_value → str → bool.
Variable title_le : relation str.
Context `{!RelDecision title_le}.
Variable repr_list : list str → str.

Abbreviation search' :=
  (search icontains_list icontains_text icontains_dict title_le repr_list).

Lemma search_rows (args : SearchArgs) (db : Comics) (log : list SearchLog) :
  (search' args db log).1 ⊆+ (map_to_list db).*2
  ∧ (length (search' args db log).1 ≤ MAX_RESULTS)%nat.
Proof.
  unfold search. cbn [fst]. split; [|rewrite length_take; lia].
  rewrite apply_filters_selects by apply search_params_selections.
  etrans; [apply sublist_submseteq, sublist_take|].
  unfold order_by_title. rewrite merge_sort_Permutation.
  apply sublist_submseteq, foldl_selections_sublist, Forall_filter_weaken.
  apply search_params_selections.
Qed.

Lemma search_row_lookup (args : SearchArgs) (db : Comics) (log : list SearchLog)
    (c : Comic) :
  c ∈ (search' args db log).1 → ∃ k, db !! k = Some c.
Proof.
  intros Hc. destruct (search_rows args db log) as [Hsub _].
  apply (elem_of_submseteq _ _ _ Hc) in Hsub.
  apply list_elem_of_fmap in Hsub as [[k c'] [-> Hin]].
  exists k. by apply elem_of_map_to_list.
Qed.

Lemma search_log (args : SearchArgs) (db : Comics) (log : list SearchLog) :
  ∃ text, (search' args db log).2
          = log ++ [ {| query_text := text;
                        result_ids := bl_record_id <$> (search' args db log).1;
                        num_results := length (search' args db log).1 |} ].
Proof. by eexists. Qed.

Lemma all_result_ids_resolve (db : Comics) (log : list SearchLog) :
  log_resolves db log → Forall (λ rid, is_Some (db !! rid)) (all_result_ids log).
Proof.
  intros H. unfold all_result_ids. apply Forall_join. by apply Forall_fmap.
Qed.

End LogFacts.

(** X24: on a table whose rows sit under their own identifier, a search keeps
    the log sound: when every identifier of the log has a row, so has every
    identifier of the log after the search. *)
Theorem search_keeps_log_resolved
    (icontains_list : list str → str → bool) (icontains_text : str → str → bool)
    (icontains_dict : gmap str json_value → str → bool)
    (title_le : relation str) `{!RelDecision title_le}
    (repr_list : list str → str)
    (args : SearchArgs) (db : Comics) (log : list SearchLog) :
  well_keyed db → log_resolves db log →
  log_resolves db (search icontains_list icontains_text icontains_dict title_le
                     repr_list args db log).2.
Proof.
  intros Hkeyed Hlog.
  destruct (search_log icontains_list icontains_text icontains_dict title_le
              repr_list args db log) as [text ->].
  apply Forall_app. split; [done|]. constructor; [|constructor].
  cbn [result_ids]. apply Forall_fmap, Forall_forall. intros c Hc.
  apply search_row_lookup in Hc as [k Hk]. cbn. rewrite (Hkeyed k c Hk). eauto.
Qed.

Lemma search_keeps_log_resolved_witness :
  log_resolves two_titles
    (search has_element same_text no_entry codepoint_le first_or_empty
       no_args two_titles two_searches).2.
Proof.
  apply (search_keeps_log_resolved has_element same_text no_entry codepoint_le
           first_or_empty no_args two_titles two_searches).
  - change (map_Forall (λ k c, bl_record_id c = k) two_titles).
    apply (bool_decide_unpack _). by vm_compute.
  - unfold log_resolves. apply (bool_decide_unpack _). by vm_compute.
Defined.

(** X25: when every identifier of the log has a row in the table, no pair
    of [top_results] holds [None] for the row, whatever the limit. *)
Theorem top_results_resolved (limit : Z) (log : list SearchLog) (db : Comics) :
  log_resolves db log →
  Forall (λ pair, is_Some pair.1) (top_results limit log db).
Proof.
  intros Hlog%all_result_ids_resolve. unfold top_results.
  rewrite count_results_Counter.
  destruct (slice_to_take limit (sorted_desc (Counter (all_result_ids log))))
    as [m [-> _]].
  apply Forall_fmap, Forall_forall. intros [k n] Hin. cbn.
  assert (Hk : (k, n) ∈ Counter (all_result_ids log)).
  { destruct (sorted_desc_sorted (Counter (all_result_ids log))) as [Hperm _].
    rewrite <- Hperm. eapply elem_of_sublist; [exact Hin | apply sublist_take]. }
  apply Counter_elem in Hk as [Hk _].
  by apply (proj1 (Forall_forall _ _) Hlog).
Qed.

Lemma top_results_resolved_witness :
  Forall (λ pair, is_Some pair.1) (top_results 5 two_searches two_titles).
Proof.
  apply (top_results_resolved 5 two_searches two_titles).
  unfold log_resolves. apply (bool_decide_unpack _). by vm_compute.
Defined.

(** X26: the view [search] with the order left out, or given as [asc],
    shows rows of the table, at most 10,000 of them, sorted on the
    lower-cased title whatever the order of the title column is; it keeps
    their identifiers, in the order shown, under [last_search_results], and
    adds one entry to the log. *)
Theorem search_view_default_order
    (icontains_list : list str → str → bool) (icontains_text : str → str → bool)
    (icontains_dict : gmap str json_value → str → bool)
    (title_le : relation str) `{!RelDecision title_le}
    (repr_list : list str → str) (py_lower : str → str)
    (query : SearchQuery) (session : Session) (db : Comics)
    (log : list SearchLog) :
  default (U "asc") (get_order query) = U "asc" →
  let shown := search_view icontains_list icontains_text icontains_dict title_le
                 repr_list py_lower query session db log in
  let results := shown.1.1.1 in
  results ⊆+ (map_to_list db).*2
  ∧ (N.of_nat (length results) ≤ 10000)%N
  ∧ Sorted (sorted_by (λ c, py_lower (title c)) false) results
  ∧ kept_ids shown.1.2 LAST_SEARCH_RESULTS = bl_record_id <$> results
  ∧ length shown.2 = S (length log).
Proof.
  intros Horder shown results. subst results shown. unfold search_view.
  rewrite Horder. change (truthy (U "asc")) with true. cbv beta iota zeta.
  cbn [fst snd].
  match goal with
  | |- context [sort_results _ (search ?a ?b ?c ?d ?e ?args db log).1 _] =>
      destruct (search_rows a b c d e args db log) as [Hsub Hlen];
      destruct (search_log a b c d e args db log) as [text Htext];
      rewrite Htext; clear Htext;
      generalize dependent (search a b c d e args db log).1
  end.
  intros found Hsub Hlen.
  change (sort_results py_lower found (U "asc"))
    with (py_sorted (λ c, py_lower (title c)) false found).
  destruct (py_sorted_sorted (λ c, py_lower (title c)) false found) as [H1 H2].
  split; [by rewrite H1|]. split.
  { rewrite H1. unfold MAX_RESULTS in Hlen. lia. }
  split; [done|]. split.
  { unfold kept_ids. by rewrite lookup_insert_eq. }
  rewrite length_app. cbn. lia.
Qed.

Lemma search_view_default_order_witness :
  let shown := search_view has_element same_text no_entry codepoint_le
                 first_or_empty lower bare_query ∅ two_titles [] in
  let results := shown.1.1.1 in
  results ⊆+ (map_to_list two_titles).*2
  ∧ (N.of_nat (length results) ≤ 10000)%N
  ∧ Sorted (sorted_by (λ c, lower (title c)) false) results
  ∧ kept_ids shown.1.2 LAST_SEARCH_RESULTS = bl_record_id <$> results
  ∧ length shown.2 = S (length (@nil SearchLog)).
Proof.
  apply (search_view_default_order has_element same_text no_entry codepoint_le
           first_or_empty lower bare_query ∅ two_titles []).
  reflexivity.
Defined.

(** X27: [advanced_search] on a form that holds nothing but white space,
    and commas between the languages at most, runs no search: it shows no
    row and the message that a criterion is needed, and leaves the session
    and the log as they are. *)
Theorem advanced_search_blank_form
    (icontains_list : list str → str → bool) (icontains_text : str → str → bool)
    (icontains_dict : gmap str json_value → str → bool)
    (title_le : relation str) `{!RelDecision title_le}
    (repr_list : list str → str)
    (form : AdvancedForm) (session : Session) (db : Comics)
    (log : list SearchLog) :
  blank_form form →
  advanced_search icontains_list icontains_text icontains_dict title_le
    repr_list form session db log
  = ([], Some NO_CRITERIA, session, log).
Proof.
  intros (H1%strip_nil_iff & H2%strip_nil_iff & H3%strip_nil_iff
          & H4%strip_nil_iff & H5%strip_nil_iff & H6).
  assert (Hnone : has_criteria form = false).
  { unfold has_criteria, advanced_args, strip_or_none, form_language_list.
    cbn [arg_author arg_year arg_genre arg_edition arg_name_type arg_languages].
    rewrite H1, H2, H3, H4, H5. cbn [truthy default orb].
    rewrite filter_none.
    - by destruct (truthy (strip (form_languages form))).
    - eapply Forall_impl; [exact H6|]. intros x Hx%strip_nil_iff. by intros ?. }
  unfold advanced_search. by rewrite Hnone.
Qed.

Lemma advanced_search_blank_form_witness :
  advanced_search has_element same_text no_entry codepoint_le first_or_empty
    comma_form ∅ two_titles []
  = ([], Some NO_CRITERIA, ∅, []).
Proof.
  apply (advanced_search_blank_form has_element same_text no_entry codepoint_le
           first_or_empty comma_form ∅ two_titles []).
  repeat split; repeat constructor.
Defined.

(** ** The search list and the reports of the repository *)

Section SessionFacts.
Implicit Types (l ids : list str) (x y : str) (db : Comics).

Lemma list_remove_sublist x l : list_remove x l `sublist_of` l.
Proof.
  induction l as [|z l IH]; cbn [list_remove]; [done|].
  case_bool_decide; by constructor.
Qed.

Lemma list_remove_elem x l y :
  NoDup l → y ∈ list_remove x l ↔ y ∈ l ∧ y ≠ x.
Proof.
  induction 1 as [|z l Hz Hl IH]; cbn [list_remove].
  - rewrite elem_of_nil. tauto.
  - case_bool_decide as Hzx.
    + subst z. rewrite elem_of_cons. split; [|tauto].
      intros Hy. split; [tauto|]. by intros ->.
    + rewrite !elem_of_cons, IH. split; [|tauto].
      intros [->|[Hy Hne]]; tauto.
Qed.

Lemma list_remove_snoc x l : x ∉ l → list_remove x (l ++ [x]) = l.
Proof.
  induction l as [|z l IH]; cbn [list_remove app].
  - intros _. by rewrite bool_decide_eq_true_2.
  - intros [Hz Hl]%not_elem_of_cons.
    rewrite bool_decide_eq_false_2 by done. by rewrite IH.
Qed.

Lemma elem_of_rows_with_ids ids db (c : Comic) :
  c ∈ rows_with_ids ids db ↔ ∃ k, k ∈ ids ∧ db !! k = Some c.
Proof.
  unfold rows_with_ids. rewrite list_elem_of_fmap. split.
  - intros [[k c'] [-> [Hk Hin]%elem_of_map_to_list%map_lookup_filter_Some]].
    by exists k.
  - intros (k & Hk & Hc). exists (k, c). split; [done|].
    apply elem_of_map_to_list, map_lookup_filter_Some. by split.
Qed.

Lemma rows_with_ids_length ids db :
  (length (rows_with_ids ids db) ≤ length ids)%nat.
Proof.
  unfold rows_with_ids. rewrite length_fmap.
  rewrite <- (length_fmap fst). apply submseteq_length.
  apply NoDup_submseteq; [apply NoDup_fst_map_to_list|].
  intros k [[k' c] [-> [_ Hin]%elem_of_map_to_list%map_lookup_filter_Some]]
    %list_elem_of_fmap.
  exact Hin.
Qed.

End SessionFacts.

(** X28: the search list of a session is kept as a set: as long as it holds
    no identifier twice, adding one leaves it so, puts the identifier behind
    the others unless it is there already, and does the same when repeated;
    removing one leaves the others, in a list that still holds none twice;
    removing what has just been added gives the list back; and an empty or
    missing identifier is not saved. *)
Theorem search_list_is_a_set (session : Session) (x : str) :
  NoDup (kept_ids session SEARCH_LIST) →
  let before := kept_ids session SEARCH_LIST in
  let added := kept_ids (add_to_search_list session x) SEARCH_LIST in
  let removed :=
    kept_ids (remove_from_search_list session (Some x)) SEARCH_LIST in
  NoDup added
  ∧ (∀ y, y ∈ added ↔ y ∈ before ∨ y = x)
  ∧ before `prefix_of` added
  ∧ add_to_search_list (add_to_search_list session x) x
    = add_to_search_list session x
  ∧ NoDup removed
  ∧ (∀ y, y ∈ removed ↔ y ∈ before ∧ y ≠ x)
  ∧ (x ∈ before
     ∨ kept_ids (remove_from_search_list (add_to_search_list session x) (Some x))
                SEARCH_LIST = before)
  ∧ save_to_search_list session (Some []) = session
  ∧ save_to_search_list session None = session.
Proof.
  intros Hnd before added removed. subst added removed.
  assert (Hadded : kept_ids (add_to_search_list session x) SEARCH_LIST
                   = if bool_decide (x ∈ before) then before else before ++ [x]).
  { unfold add_to_search_list, kept_ids. by rewrite lookup_insert_eq. }
  assert (Hremoved :
    kept_ids (remove_from_search_list session (Some x)) SEARCH_LIST
      = list_remove x before
    ∨ ((x ∉ before)
       ∧ kept_ids (remove_from_search_list session (Some x)) SEARCH_LIST
         = before)).
  { unfold remove_from_search_list, kept_ids.
    fold (kept_ids session SEARCH_LIST). fold before.
    case_bool_decide; [left; by rewrite lookup_insert_eq | by right]. }
  split. { rewrite Hadded. case_bool_decide as Hx; [done|].
           apply NoDup_app. split; [done|]. split; [|apply NoDup_singleton].
           intros y Hy ->%list_elem_of_singleton. by apply Hx. }
  split. { intros y. rewrite Hadded. case_bool_decide as Hx.
           - split; [tauto|]. by intros [?| ->].
           - rewrite elem_of_app, list_elem_of_singleton. tauto. }
  split. { rewrite Hadded. case_bool_decide; [done|]. by apply prefix_app_r. }
  split. { unfold add_to_search_list at 1.
           fold (kept_ids (add_to_search_list session x) SEARCH_LIST).
           rewrite Hadded. unfold add_to_search_list.
           fold (kept_ids session SEARCH_LIST). fold before.
           rewrite insert_insert_eq. f_equal.
           case_bool_decide as Hx; [by rewrite bool_decide_eq_true_2|].
           rewrite bool_decide_eq_true_2; [done|].
           apply elem_of_app. right. by apply list_elem_of_singleton. }
  split. { destruct Hremoved as [->|[_ ->]]; [|done].
           eapply sublist_NoDup; [exact Hnd | apply list_remove_sublist]. }
  split. { intros y. destruct Hremoved as [->|[Hx ->]].
           - by apply list_remove_elem.
           - split; [|tauto]. intros Hy. split; [done|]. by intros ->. }
  split. { destruct (decide (x ∈ before)) as [Hx|Hx]; [by left|right].
           unfold remove_from_search_list.
           fold (kept_ids (add_to_search_list session x) SEARCH_LIST).
           rewrite Hadded. rewrite (bool_decide_eq_false_2 (x ∈ before)) by done.
           rewrite bool_decide_eq_true_2.
           - unfold kept_ids at 1. rewrite lookup_insert_eq. cbn [default].
             by apply list_remove_snoc.
           - apply elem_of_app. right. by apply list_elem_of_singleton. }
  done.
Qed.

Lemma search_list_is_a_set_witness :
  NoDup (kept_ids (add_to_search_list one_saved (U "2")) SEARCH_LIST)
  ∧ add_to_search_list (add_to_search_list one_saved (U "2")) (U "2")
    = add_to_search_list one_saved (U "2")
  ∧ NoDup (kept_ids (remove_from_search_list one_saved (Some (U "2")))
                    SEARCH_LIST).
Proof.
  destruct (search_list_is_a_set one_saved (U "2"))
    as (H1 & _ & _ & H2 & H3 & _);
    [apply (bool_decide_unpack _); by vm_compute|].
  split; [exact H1|]. split; [exact H2 | exact H3].
Defined.

(** X29: [get_search_list] returns exactly the rows of the table whose
    identifier is in the search list, and no more rows than the list has
    identifiers; [clear_search_results] empties the list, so that no row is
    returned afterwards, forgets the last results and leaves the rest of the
    session as it is. *)
Theorem search_list_rows (session : Session) (db : Comics) :
  (∀ c, c ∈ get_search_list session db
        ↔ ∃ k, k ∈ kept_ids session SEARCH_LIST ∧ db !! k = Some c)
  ∧ (length (get_search_list session db)
     ≤ length (kept_ids session SEARCH_LIST))%nat
  ∧ get_search_list (clear_search_results session) db = []
  ∧ clear_search_results session !! SEARCH_LIST = Some []
  ∧ clear_search_results session !! LAST_SEARCH_RESULTS = None
  ∧ ∀ key, key = SEARCH_LIST ∨ key = LAST_SEARCH_RESULTS
           ∨ clear_search_results session !! key = session !! key.
Proof.
  assert (Hne : LAST_SEARCH_RESULTS ≠ SEARCH_LIST) by by vm_compute.
  assert (Hlist : clear_search_results session !! SEARCH_LIST = Some []).
  { unfold clear_search_results, clear_search_list.
    rewrite lookup_delete_ne by done. by rewrite lookup_insert_eq. }
  split; [intros c; apply elem_of_rows_with_ids|].
  split; [apply rows_with_ids_length|].
  split. { pose proof (rows_with_ids_length [] db) as Hlen.
           unfold get_search_list. rewrite Hlist. cbn [default]. unfold id.
           destruct (rows_with_ids [] db); [done|]. cbn in Hlen. lia. }
  split; [done|].
  split; [apply lookup_delete_eq|].
  intros key. destruct (decide (key = SEARCH_LIST)) as [|H1]; [by left|].
  destruct (decide (key = LAST_SEARCH_RESULTS)) as [|H2]; [by right; left|].
  right; right. unfold clear_search_results, clear_search_list.
  rewrite lookup_delete_ne by done. by rewrite lookup_insert_ne.
Qed.

(** X30: [get_top_search_results] returns at most ten rows, each the row of
    an identifier of the log; [get_comics_in_many_searches] returns exactly
    the rows of the table whose identifier occurs more than [threshold]
    times in all the lists [result_ids] of the log. *)
Theorem repository_reports (threshold : nat) (log : list SearchLog) (db : Comics) :
  (length (get_top_search_results log db) ≤ 10)%nat
  ∧ (∀ c, c ∈ get_top_search_results log db →
          ∃ k, k ∈ all_result_ids log ∧ db !! k = Some c)
  ∧ (∀ c, c ∈ get_comics_in_many_searches threshold log db
          ↔ ∃ k, db !! k = Some c
                 ∧ (threshold < occurrences k (all_result_ids log))%nat).
Proof.
  split.
  { unfold get_top_search_results. etrans; [apply rows_with_ids_length|].
    rewrite length_fmap, length_take. lia. }
  split.
  { intros c (k & Hk & Hc)%elem_of_rows_with_ids. exists k. split; [|done].
    apply list_elem_of_fmap in Hk as [[k' n] [-> Hin]]. cbn.
    assert (Hk : (k', n) ∈ Counter (all_result_ids log)).
    { destruct (sorted_desc_sorted (Counter (all_result_ids log))) as [Hperm _].
      rewrite <- Hperm. eapply elem_of_sublist; [exact Hin | apply sublist_take]. }
    by apply Counter_elem in Hk as [Hk _]. }
  intros c. unfold get_comics_in_many_searches. rewrite elem_of_rows_with_ids.
  split.
  - intros (k & Hk & Hc). exists k. split; [done|].
    apply list_elem_of_fmap in Hk as [[k' n] [-> Hin]].
    apply list_elem_of_In, filter_In in Hin as [Hin Hlt]. cbn [fst snd] in *.
    apply list_elem_of_In, Counter_elem in Hin as [_ ->].
    by apply Nat.ltb_lt.
  - intros (k & Hc & Hlt). exists k. split; [|done].
    apply list_elem_of_fmap. exists (k, occurrences k (all_result_ids log)).
    split; [done|]. apply list_elem_of_In, filter_In. split.
    + apply list_elem_of_In, Counter_elem. split; [|done].
      unfold occurrences in Hlt.
      destruct (filter (λ y, y = k) (all_result_ids log)) as [|y l] eqn:Hf;
        [cbn in Hlt; lia|].
      assert (Hy : y ∈ filter (λ y, y = k) (all_result_ids log))
        by (rewrite Hf; by left).
      by apply list_elem_of_filter in Hy as [-> Hy].
    + by apply Nat.ltb_lt.
Qed.
